(** * drill: traversal engine, section segmenter, section and filesystem nodes

  A shallow embedding of the Go sources of the [drill] repository
  ([drill], [filesys] and [filesys/markdown] packages) together with the
  properties of its specification that were checked against them. *)

From Stdlib Require Import ZArith Lia Ascii.
From stdpp Require Import base option list strings gmap.

#[local] Set Warnings "-register-all".

(** ** Go values shared by every package *)

Module Go.

Local Open Scope Z_scope.

(** Go's [int] on the 64-bit targets: a two's complement word. *)
Definition int_min : Z := - 2 ^ 63.
Definition int_max : Z := 2 ^ 63 - 1.

Definition is_int (z : Z) : Prop := int_min <= z <= int_max.

(** Wrap-around of an arithmetic result into [int]. *)
Definition wrap (z : Z) : Z := (z + 2 ^ 63) mod 2 ^ 64 - 2 ^ 63.

(** A call either returns or panics with a run-time error. *)
Inductive outcome (A : Type) : Type :=
| Returns (a : A)
| Panics (msg : string).
Arguments Returns {A} a.
Arguments Panics {A} msg.

Definition bind {A B} (m : outcome A) (k : A -> outcome B) : outcome B :=
  match m with
  | Returns a => k a
  | Panics msg => Panics msg
  end.

(** Case analysis on the first integer comparison of the goal. *)
Ltac cmp_cases :=
  match goal with
  | |- context [Z.leb ?a ?b] => destruct (Z.leb_spec a b)
  | |- context [Z.ltb ?a ?b] => destruct (Z.ltb_spec a b)
  | |- context [Z.geb ?a ?b] => destruct (Z.geb_spec a b)
  | |- context [Z.eqb ?a ?b] => destruct (Z.eqb_spec a b)
  end; cbn [orb andb negb]; try lia.

End Go.

(** ** Package [drill]: the capability model and the generic traversal *)

Module Drill.

Import Go.

(** A value of interface type [Node]. Every node has a [Fragment]; a
    [Branch] is a node whose dynamic type also implements
    [OrderedBranch], with the list its [OrderedChildren] method
    returns ([None] is a nil child). The interface value nil is
    [None : option Node]. *)
Inductive Node : Type :=
| Leaf (fragment : string)
| Branch (fragment : string) (children : list (option Node)).

Definition Fragment (n : Node) : string :=
  match n with
  | Leaf f => f
  | Branch f _ => f
  end.

(** The type assertion [n.(OrderedBranch)]: the same value, when its
    dynamic type has the methods. *)
Definition asOrderedBranch (n : Node) : option Node :=
  match n with
  | Leaf _ => None
  | Branch _ _ => Some n
  end.

Definition OrderedChildren (o : Node) : list (option Node) :=
  match o with
  | Leaf _ => []
  | Branch _ cs => cs
  end.

Local Open Scope Z_scope.

(** [func Index(i, len int) int] *)
Definition Index (i len : Z) : Z :=
  if len <=? 0 then -1
  else
    let i := if i <? 0 then wrap (i + len) else i in
    if (i <? 0) || (i >=? len) then -1 else i.

Local Close Scope Z_scope.

(** The body of [descendants]: the loop
    [for _, child := range n.OrderedChildren()], where [ob] is the
    outcome of the assertion [n.(OrderedBranch)] the loop makes on
    every round and [call] is the recursive call. The slice behind
    [d] is threaded through. *)
Fixpoint rangeChildren (ob : option Node)
    (call : list Node -> Node -> option (list Node))
    (cs : list (option Node)) (d : list Node) : option (list Node) :=
  match cs with
  | [] => Some d
  | None :: cs' => rangeChildren ob call cs' d
  | Some child :: cs' =>
      let d := d ++ [child] in
      match ob with
      | Some o =>
          match call d o with
          | Some d' => rangeChildren ob call cs' d'
          | None => None
          end
      | None => rangeChildren ob call cs' d
      end
  end.

(** [func descendants(d *[]Node, n OrderedBranch)]. Each call takes one
    unit of [fuel] (one stack frame); [None] says that the call nest is
    deeper than [fuel]. *)
Fixpoint descendants (fuel : nat) (d : list Node) (n : Node)
  : option (list Node) :=
  match fuel with
  | O => None
  | S fuel' =>
      rangeChildren (asOrderedBranch n) (descendants fuel')
        (OrderedChildren n) d
  end.

(** [func Descendants(n Node) []Node] *)
Definition Descendants (fuel : nat) (n : option Node) : option (list Node) :=
  match n with
  | None => Some []
  | Some n =>
      match asOrderedBranch n with
      | Some o => descendants fuel [] o
      | None => Some []
      end
  end.

(** The enumeration the documentation of [Descendants] describes: every
    non-nil ordered child in pre-order, descending into a child when
    the child is an [OrderedBranch]. *)
Fixpoint preorder (n : Node) : list Node :=
  match n with
  | Leaf _ => []
  | Branch _ cs =>
      (fix children (cs : list (option Node)) : list Node :=
         match cs with
         | [] => []
         | None :: cs' => children cs'
         | Some c :: cs' => c :: preorder c ++ children cs'
         end) cs
  end.

(** A one-child branch. *)
Definition one_child : Node := Branch "root" [Some (Leaf "a")].

End Drill.

(** ** Package [markdown]: the block tree and the section segmenter *)

Module Markdown.

Import Go.

Local Open Scope Z_scope.

(** The value of a goldmark attribute is an [interface{}]: the
    attribute parser stores a quoted or bare word as [[]byte], a number
    as [float64] (its value is never looked at here), [true] and
    [false] as [bool] and [null] as nil; an extension may store a Go
    [string]. *)
Inductive attr_value : Type :=
| AttrBytes (b : string)
| AttrString (s : string)
| AttrNumber (n : Z)
| AttrBool (b : bool)
| AttrNil.

(** [*ast.Heading]: its level, its attributes in order, and the
    segments of the source that its inline content spans, which is all
    that [Text] reads. *)
Record heading : Type := mkHeading {
  Level : Z;
  Attributes : list (string * attr_value);
  Segments : list (nat * nat)
}.

(** A block of the tree ([ast.Node]): a heading, a [*Section] with its
    [Heading] and [Name] fields and its children, or a block of any
    other kind with its children. *)
Inductive node : Type :=
| HeadingNode (h : heading)
| OtherNode (kind : string) (children : list node)
| SectionNode (hd : option heading) (name : string) (children : list node).

Definition children (n : node) : list node :=
  match n with
  | HeadingNode _ => []
  | OtherNode _ cs => cs
  | SectionNode _ _ cs => cs
  end.

(** [heading.AttributeString(name)]: the value of the first attribute
    called [name]. *)
Fixpoint lookupAttribute (attrs : list (string * attr_value)) (name : string)
  : option attr_value :=
  match attrs with
  | [] => None
  | (k, v) :: attrs' =>
      if String.eqb k name then Some v else lookupAttribute attrs' name
  end.

Definition AttributeString (h : heading) (name : string) : option attr_value :=
  lookupAttribute (Attributes h) name.

(** [heading.Text(source)]: the bytes of the source under the segments
    of the heading. *)
Definition Text (source : string) (h : heading) : string :=
  fold_right
    (fun seg acc =>
       String.append
         (String.substring (fst seg) (snd seg - fst seg)%nat source) acc)
    EmptyString (Segments h).

(** A [*Section] that is still detached from the tree. *)
Record Section : Type := mkSection {
  Heading : option heading;
  Name : string;
  Children : list node
}.

(** [func NewSection() *Section] *)
Definition NewSection : Section :=
  {| Heading := None; Name := EmptyString; Children := [] |}.

Definition ChildCount (s : Section) : Z := Z.of_nat (length (Children s)).

Definition asNode (s : Section) : node :=
  SectionNode (Heading s) (Name s) (Children s).

(** The name given to the section of [heading] (lines 63-73 of
    [compileSection]): the assertion [id.([]byte)] holds for a byte
    string only. *)
Definition sectionName (source : string) (h : heading) : string :=
  match AttributeString h "section" with
  | Some (AttrBytes id) => id
  | _ =>
      match AttributeString h "id" with
      | Some (AttrBytes id) => id
      | _ => Text source h
      end
  end.

(** [parent.InsertBefore(parent, v, insertee)], with [v] at position
    [i] of the child list. *)
Definition InsertBefore (l : list node) (i : nat) (insertee : node)
  : list node :=
  take i l ++ insertee :: drop i l.

(** The state of the loop of [compileSection]: the child list of
    [parent], the position in it of [current], the section under
    construction, and [subs]. A [*Section] of [subs] is kept as its
    position in the child list of [parent]: the loop never inserts or
    removes anything before a section it has emitted. *)
Record scan : Type := mkScan {
  parent : list node;
  cur : nat;
  section : Section;
  subs : list nat
}.

(** [section.Heading != nil || section.ChildCount() > 0] *)
Definition emitted (s : Section) : bool :=
  match Heading s with Some _ => true | None => false end
  || (0 <? ChildCount s).

(** One round of the loop. [section.AppendChild(section, current)]
    first takes [current] out of [parent], so that its next sibling
    comes to stand at [cur]; the heading of a new section stays where
    it is. *)
Definition step (source : string) (level : Z) (st : scan) (current : node)
  : scan :=
  let append :=
    {| parent := delete (cur st) (parent st);
       cur := cur st;
       section :=
         {| Heading := Heading (section st);
            Name := Name (section st);
            Children := Children (section st) ++ [current] |};
       subs := subs st |} in
  match current with
  | HeadingNode heading =>
      if Level heading =? level then
        let st :=
          if emitted (section st) then
            {| parent :=
                 InsertBefore (parent st) (cur st) (asNode (section st));
               cur := S (cur st);
               section := section st;
               subs := subs st ++ [cur st] |}
          else st in
        {| parent := parent st;
           cur := S (cur st);
           section :=
             {| Heading := Some heading;
                Name := sectionName source heading;
                Children := [] |};
           subs := subs st |}
      else append
  | _ => append
  end.

(** After the loop: [parent.AppendChild(parent, section)]. *)
Definition finish (st : scan) : scan :=
  if emitted (section st) then
    {| parent := parent st ++ [asNode (section st)];
       cur := cur st;
       section := section st;
       subs := subs st ++ [length (parent st)] |}
  else st.

(** The loop runs over the children [parent] had when it started: the
    next sibling is read before [current] is moved. *)
Definition run (source : string) (level : Z) (cs : list node) : scan :=
  finish
    (fold_left (step source level) cs
       {| parent := cs; cur := 0%nat; section := NewSection; subs := [] |}).

(** One round of [for _, section := range subs]: [compile] replaces the
    children of the section at [idx], when it has a heading. *)
Definition recurseAt (compile : list node -> list node)
    (p : list node) (idx : nat) : list node :=
  match p !! idx with
  | Some (SectionNode (Some h) name cs) =>
      <[idx := SectionNode (Some h) name (compile cs)]> p
  | _ => p
  end.

(** [func compileSection(parent ast.Node, source []byte, level int)],
    as the child list [parent] has after the call. The recursion goes
    down on [gas], the number of levels left below 6, which
    [compileSection] sets so that it never runs out; below 6 the
    addition [level + 1] does not wrap. *)
Fixpoint compileSection_gas (gas : nat) (source : string) (level : Z)
    (cs : list node) : list node :=
  let st := run source level cs in
  if level >=? 6 then parent st
  else
    match gas with
    | O => parent st
    | S gas' =>
        fold_left (recurseAt (compileSection_gas gas' source (level + 1)))
          (subs st) (parent st)
    end.

Definition compileSection (source : string) (level : Z) (cs : list node)
  : list node :=
  compileSection_gas (Z.to_nat (6 - level)) source level cs.

(** [func (s sectionTransformer) Transform(doc, r, pc)], on the
    document node. *)
Definition Transform (source : string) (doc : node) : node :=
  match doc with
  | OtherNode kind cs => OtherNode kind (compileSection source 1 cs)
  | _ => doc
  end.

End Markdown.

(** ** The segmenter, read as a function on lists *)

Module Segments.

Import Go Markdown.

Local Open Scope Z_scope.

(** The heading that [current] is, when it is one of the level of the
    pass. *)
Definition opens (level : Z) (current : node) : option heading :=
  match current with
  | HeadingNode h => if Level h =? level then Some h else None
  | _ => None
  end.

Definition close (s : Section) : list node :=
  if emitted s then [asNode s] else [].

Definition extend (s : Section) (c : node) : Section :=
  {| Heading := Heading s; Name := Name s; Children := Children s ++ [c] |}.

Definition fresh (source : string) (h : heading) : Section :=
  {| Heading := Some h; Name := sectionName source h; Children := [] |}.

(** What the loop leaves in [parent] from the children [cs] on, when it
    reaches them with the section [s] under construction. *)
Fixpoint grouped (source : string) (level : Z) (s : Section) (cs : list node)
  : list node :=
  match cs with
  | [] => close s
  | c :: cs' =>
      match opens level c with
      | Some h => close s ++ c :: grouped source level (fresh source h) cs'
      | None => grouped source level (extend s c) cs'
      end
  end.

(** The positions of the sections of [l], counted from [base]. *)
Fixpoint sectionPositions (base : nat) (l : list node) : list nat :=
  match l with
  | [] => []
  | SectionNode _ _ _ :: l' => base :: sectionPositions (S base) l'
  | _ :: l' => sectionPositions (S base) l'
  end.

(** What the recursion does to one child of [parent]. *)
Definition recurse (compile : list node -> list node) (n : node) : node :=
  match n with
  | SectionNode (Some h) name cs => SectionNode (Some h) name (compile cs)
  | _ => n
  end.

(** [P] holds of [n] and of every node below it. *)
Fixpoint node_all (P : node -> Prop) (n : node) : Prop :=
  P n /\
  match n with
  | HeadingNode _ => True
  | OtherNode _ cs | SectionNode _ _ cs =>
      (fix all (l : list node) : Prop :=
         match l with
         | [] => True
         | x :: l' => node_all P x /\ all l'
         end) cs
  end.

Definition isSection (n : node) : bool :=
  match n with
  | SectionNode _ _ _ => true
  | _ => false
  end.

(** A tree as the parser leaves it: [Section] is a kind of node that only
    the segmenter makes. *)
Definition plain (n : node) : Prop :=
  node_all (fun x => isSection x = false) n.

(** A section without a heading. *)
Definition isOrphan (n : node) : bool :=
  match n with
  | SectionNode None _ _ => true
  | _ => false
  end.

(** In a child list, a section without a heading stands nowhere but at
    the front. *)
Definition orphan_first (l : list node) : Prop :=
  forall (i : nat) (x : node),
    l !! i = Some x -> isOrphan x = true -> i = 0%nat.

(** The flat content under a node: a section gives way to what it holds,
    anything else stands for itself. *)
Fixpoint unsection (n : node) : list node :=
  match n with
  | SectionNode _ _ cs =>
      (fix go (l : list node) : list node :=
         match l with
         | [] => []
         | x :: l' => unsection x ++ go l'
         end) cs
  | _ => [n]
  end.

(** The byte string an attribute holds, if it holds one. *)
Definition asBytes (v : option attr_value) : option string :=
  match v with
  | Some (AttrBytes b) => Some b
  | _ => None
  end.

(** The name the specification gives a section: the first of the
    [section] attribute, the [id] attribute and the text of the heading
    that is there, here with "is there" read as "holds a byte string". *)
Definition resolvedName (source : string) (h : heading) : string :=
  match asBytes (AttributeString h "section") with
  | Some id => id
  | None =>
      match asBytes (AttributeString h "id") with
      | Some id => id
      | None => Text source h
      end
  end.

(** A section is called as the specification says of its heading, and
    has the empty name without one. *)
Definition named (source : string) (n : node) : Prop :=
  match n with
  | SectionNode (Some h) name _ => name = resolvedName source h
  | SectionNode None name _ => name = EmptyString
  | _ => True
  end.

(** The children split at the headings of the level of the pass: what
    comes before the first of them, and each of them with what follows
    it up to the next. *)
Fixpoint runs (level : Z) (cs : list node)
  : list node * list (heading * list node) :=
  match cs with
  | [] => ([], [])
  | c :: cs' =>
      let (lead, secs) := runs level cs' in
      match opens level c with
      | Some h => ([], (h, lead) :: secs)
      | None => (c :: lead, secs)
      end
  end.

(** The child list that the specification describes for a pass at
    [level]: a section without heading that holds what comes before the
    first heading of the level, if anything does; then each heading of
    the level, followed by the section that refers to it, whose children
    are what follows the heading up to the next one, as [deeper] leaves
    them. *)
Definition segmented (source : string) (level : Z)
    (deeper : list node -> list node) (cs : list node) : list node :=
  let (lead, secs) := runs level cs in
  match lead with
  | [] => []
  | _ :: _ => [SectionNode None EmptyString lead]
  end
  ++ flat_map
       (fun hr : heading * list node =>
          [HeadingNode (fst hr);
           SectionNode (Some (fst hr)) (sectionName source (fst hr))
             (deeper (snd hr))])
       secs.

(** The invariant of the specification: the children of a section with
    a heading are what a pass at the level after that of the heading
    leaves of a run of parsed blocks, and the run itself when the
    heading is of level 6. *)
Definition resegmented (source : string) (n : node) : Prop :=
  match n with
  | SectionNode (Some h) _ cs =>
      exists run,
        Forall plain run /\
        cs = if Level h >=? 6 then run
             else compileSection source (Level h + 1) run
  | _ => True
  end.

(** A section has a heading of level 1 to 6, and one of level 6 holds
    no section. *)
Definition levelled (n : node) : Prop :=
  match n with
  | SectionNode (Some h) _ cs =>
      1 <= Level h <= 6 /\ (Level h = 6 -> Forall plain cs)
  | _ => True
  end.

(** Sample blocks: a paragraph, and a heading with the given level and
    attributes whose text is the first [n] bytes of the source. *)
Definition para (kind : string) : node := OtherNode kind [].

Definition headingOf (level : Z) (attrs : list (string * attr_value)) (n : nat)
  : heading :=
  {| Level := level; Attributes := attrs; Segments := [(0%nat, n)] |}.

(** A node without what it holds as a section. *)
Definition shell (n : node) : node :=
  match n with
  | SectionNode hd name _ => SectionNode hd name []
  | _ => n
  end.

(** One layer of [unsection]. *)
Definition unwrap (n : node) : list node :=
  match n with
  | SectionNode _ _ cs => cs
  | _ => [n]
  end.

(** The rule on sections without a heading in one child list: there is
    at most one, it is the first child, and it stands before every
    section that has a heading. *)
Definition orphan_rule (l : list node) : Prop :=
  (forall i j x y,
     l !! i = Some x -> l !! j = Some y ->
     isOrphan x = true -> isOrphan y = true -> i = j) /\
  (forall i x, l !! i = Some x -> isOrphan x = true -> i = 0%nat) /\
  (forall i j x h name ch,
     l !! i = Some x -> isOrphan x = true ->
     l !! j = Some (SectionNode (Some h) name ch) -> (i < j)%nat).

(** A document: text, then a heading of level 1 called by the first byte
    of the source, then text. *)
Definition sample_doc : node :=
  OtherNode "Document"
    [para "intro"; HeadingNode (headingOf 1 [] 1); para "body"].

(** A document with a heading of every level from 1 to 7, each under
    the one before, and text at the end. *)
Definition deep_doc : node :=
  OtherNode "Document"
    (map (fun level => HeadingNode (headingOf level [] 1))
       [1; 2; 3; 4; 5; 6; 7]
     ++ [para "text"]).

(** A heading whose [section] attribute is a number and whose [id] is a
    byte string. *)
Definition numbered : heading :=
  headingOf 1 [("section", AttrNumber 1); ("id", AttrBytes "intro")] 0.

End Segments.

(** ** [io.Pipe], as [FragmentReader] uses it *)

Module Pipe.

(** The errors a read of the pipe can return: [io.EOF], or the error the
    writer closed the pipe with. *)
Inductive error : Type :=
| EOF
| Failure (msg : string).

(** The pipe between one writer and one reader that stays open: the
    chunk of a [Write] that waits for the reader, and the error the write
    side was closed with (set once: [onceError]). *)
Record pipe : Type := mkPipe {
  pending : option string;
  werr : option error
}.

(** [io.Pipe()] *)
Definition newPipe : pipe := {| pending := None; werr := None |}.

(** [w.CloseWithError(err)], [err] being [None] for nil: an error that is
    already there is never overwritten, and nil stands for [io.EOF]. *)
Definition CloseWithError (p : pipe) (err : option string) : pipe :=
  {| pending := pending p;
     werr :=
       match werr p with
       | Some e => Some e
       | None =>
           Some match err with
                | Some msg => Failure msg
                | None => EOF
                end
       end |}.

(** [w.Close()] *)
Definition Close (p : pipe) : pipe := CloseWithError p None.

(** What one [Read] gives the consumer. *)
Inductive read : Type :=
| Data (chunk : string)
| ReadError (e : error).

End Pipe.

(** ** Package [markdown]: the node over the section tree *)

Module MarkdownNode.

Import Go Markdown Segments Pipe.

(** What [renderer.Render(w, source, n)] does: the chunks it writes to
    [w], in order, and the error it returns, if any. *)
Definition rendering : Type := (list string * option string)%type.

Definition Renderer : Type := string -> node -> rendering.

(** [type Node struct]: the wrapped [ast.Node], the source and the
    renderer (nil when there is none). The [root] pointer, which no
    method below reads, is left out. *)
Record Node : Type := mkNode {
  section : node;
  source : string;
  renderer : option Renderer
}.

(** [func NewNode(root, source, renderer) *Node] *)
Definition NewNode (root : node) (source : string) (renderer : option Renderer)
  : Node :=
  {| section := root; source := source; renderer := renderer |}.

(** [func (n *Node) derive(section ast.Node) *Node] *)
Definition derive (n : Node) (section : node) : Node :=
  {| section := section; source := source n; renderer := renderer n |}.

(** [child.Name] of a [*Section]. *)
Definition sectionNameOf (child : node) : string :=
  match child with
  | SectionNode _ name _ => name
  | _ => EmptyString
  end.

(** The walk of [WalkChildSections] over the children of the wrapped
    node: [ast.Walk] enters the wrapped node, then each of its children,
    and is told to skip what is below a child. [walk] is called on the
    children that are sections, with the variables it captures as a
    state, and stops the walk by returning [true]. *)
Fixpoint walkSections {S : Type} (walk : S -> node -> S * bool)
    (cs : list node) (st : S) : S :=
  match cs with
  | [] => st
  | SectionNode hd name ch :: cs' =>
      let (st', stop) := walk st (SectionNode hd name ch) in
      if stop then st' else walkSections walk cs' st'
  | _ :: cs' => walkSections walk cs' st
  end.

(** [func (n *Node) WalkChildSections(walk func(child *Section) bool)] *)
Definition WalkChildSections {S : Type} (n : Node)
    (walk : S -> node -> S * bool) (st : S) : S :=
  walkSections walk (children (section n)) st.

(** [func (n *Node) Fragment() string] *)
Definition Fragment (n : Node) : string :=
  match renderer n with
  | None => EmptyString
  | Some r =>
      match r (source n) (section n) with
      | (_, Some _) => EmptyString
      | (buf, None) => fold_right String.append EmptyString buf
      end
  end.

(** [func (n *Node) Len() int] *)
Definition Len (n : Node) : Z :=
  WalkChildSections n (fun count _ => ((count + 1)%Z, false)) 0%Z.

(** [func (n *Node) OrderedChild(i int) drill.Node] *)
Definition OrderedChild (n : Node) (i : Z) : option Node :=
  let i := Drill.Index i (Len n) in
  if (i <? 0)%Z then None
  else
    let found :=
      WalkChildSections n
        (fun (st : Z * option node) child =>
           let (count, section) := st in
           if (count =? i)%Z then ((count, Some child), true)
           else (((count + 1)%Z, section), false))
        (0%Z, None) in
    match snd found with
    | None => None
    | Some section => Some (derive n section)
    end.

(** [func (n *Node) OrderedChildren() []drill.Node] *)
Definition OrderedChildren (n : Node) : list Node :=
  WalkChildSections n
    (fun sections child => (sections ++ [derive n child], false)) [].

(** [func (n *Node) UnorderedChild(name string) drill.Node] *)
Definition UnorderedChild (n : Node) (name : string) : option Node :=
  let found :=
    WalkChildSections n
      (fun (section : option node) child =>
         if String.eqb (sectionNameOf child) name then (Some child, true)
         else (section, false))
      None in
  match found with
  | None => None
  | Some section => Some (derive n section)
  end.

(** [func (n *Node) UnorderedChildren() map[string]drill.Node] *)
Definition UnorderedChildren (n : Node) : gmap string Node :=
  WalkChildSections n
    (fun (sections : gmap string Node) child =>
       (<[sectionNameOf child := derive n child]> sections, false))
    ∅.

(** The sections among the children of the wrapped node that are called
    [name], in document order. *)
Definition sectionsNamed (n : Node) (name : string) : list node :=
  List.filter (fun c => isSection c && String.eqb (sectionNameOf c) name)
    (children (section n)).

(** Where the goroutine [go render(n, w)] stands: inside [Render], with
    the chunks it has still to write and the error it will return; back
    from [Render] with that error; before [w.Close()]; at its end. *)
Inductive goroutine : Type :=
| Rendering (todo : list string) (err : option string)
| Rendered (err : option string)
| Closing
| Finished.

(** The reader that [FragmentReader] returns, with the goroutine that
    feeds it. *)
Record stream : Type := mkStream {
  producer : goroutine;
  channel : pipe
}.

(** One step of the goroutine ([None]) or one [Read] of the consumer
    (what it returns). A [Write] hands its chunk to the reader and does
    not return before the chunk is read; a [Read] returns the error of a
    closed pipe, else the chunk of the waiting [Write], else it waits.

    [func render(n *Node, w *io.PipeWriter)] is the steps of the
    goroutine: [Render], then [w.CloseWithError(err)] if [err != nil],
    then [w.Close()]. *)
Inductive step : stream -> option read -> stream -> Prop :=
| step_write chunk todo err :
    step {| producer := Rendering (chunk :: todo) err; channel := newPipe |}
         None
         {| producer := Rendering todo err;
            channel := {| pending := Some chunk; werr := None |} |}
| step_return err :
    step {| producer := Rendering [] err; channel := newPipe |}
         None
         {| producer := Rendered err; channel := newPipe |}
| step_close_with_error msg p :
    step {| producer := Rendered (Some msg); channel := p |}
         None
         {| producer := Closing; channel := CloseWithError p (Some msg) |}
| step_no_error p :
    step {| producer := Rendered None; channel := p |}
         None
         {| producer := Closing; channel := p |}
| step_close p :
    step {| producer := Closing; channel := p |}
         None
         {| producer := Finished; channel := Close p |}
| step_read_error g p e :
    werr p = Some e ->
    step {| producer := g; channel := p |}
         (Some (ReadError e))
         {| producer := g; channel := p |}
| step_read_data g chunk :
    step {| producer := g;
            channel := {| pending := Some chunk; werr := None |} |}
         (Some (Data chunk))
         {| producer := g; channel := newPipe |}.

(** A run of the two sides, with what the consumer has read. *)
Inductive execution : stream -> list read -> stream -> Prop :=
| execution_done s : execution s [] s
| execution_step s l s' reads s'' :
    step s l s' -> execution s' reads s'' ->
    execution s (option_list l ++ reads) s''.

(** [func (n *Node) FragmentReader() (r io.ReadCloser, err error)] *)
Definition FragmentReader (n : Node) : stream + string :=
  match renderer n with
  | None => inr "no renderer"
  | Some r =>
      let (chunks, err) := r (source n) (section n) in
      inl {| producer := Rendering chunks err; channel := newPipe |}
  end.




(** A document with two headings of the same text, "A", as the
    segmenter leaves it, and its two sections. *)
Definition twins : Node :=
  NewNode
    (Transform "A"
       (OtherNode "Document"
          [HeadingNode (headingOf 1 [] 1); para "one";
           HeadingNode (headingOf 1 [] 1); para "two"]))
    "A" None.

Definition first_twin : node :=
  SectionNode (Some (headingOf 1 [] 1)) "A"
    [SectionNode None EmptyString [para "one"]].

Definition second_twin : node :=
  SectionNode (Some (headingOf 1 [] 1)) "A"
    [SectionNode None EmptyString [para "two"]].

End MarkdownNode.

(** ** Package [filesys]: the node over [io/fs] *)

Module Filesys.

Import Go.

(** [fs.DirEntry], as far as it is read: [Name()] and [IsDir()]. *)
Record DirEntry : Type := mkDirEntry {
  Name : string;
  IsDir : bool
}.

(** A value of interface type [fs.FS], as far as the ordered methods of
    [FS] look at it: whether its dynamic type implements [fs.SubFS];
    what [fs.ReadDir(fsys, ".")] returns, the entries and whether there
    is an error; and the file system under each name, which is what the
    [Sub] method of an [fs.SubFS] returns (an error for a name that is
    not listed) and what the wrapper made by [fs.Sub] serves otherwise. *)
Inductive FSys : Type := mkFSys {
  implSubFS : bool;
  dirList : list DirEntry;
  dirErr : bool;
  under : list (string * FSys)
}.

Fixpoint lookupUnder (l : list (string * FSys)) (name : string) : option FSys :=
  match l with
  | [] => None
  | (k, t) :: l' => if String.eqb k name then Some t else lookupUnder l' name
  end.

(** [fsys.Sub(dir)] of an [fs.SubFS]. *)
Definition methodSub (fsys : FSys) (dir : string) : option FSys :=
  lookupUnder (under fsys) dir.

(** The elements of a slash-separated path; [cur] is the element being
    read. *)
Fixpoint elements (name : string) (cur : string) : list string :=
  match name with
  | EmptyString => [cur]
  | String c name' =>
      if Ascii.eqb c "/"%char then cur :: elements name' EmptyString
      else elements name' (String.append cur (String c EmptyString))
  end.

(** [utf8.ValidString(s)] from the byte [s] starts with on: [more] is
    the number of bytes that the rune under way still needs, and [lo] to
    [hi] is the range that the table [acceptRanges] allows for the next
    of them. At the start of a rune the byte is looked up in the table
    [first]: one byte below [0x80]; two bytes from [0xC2] to [0xDF];
    three from [0xE0] to [0xEF], of which [0xE0] and [0xED] narrow the
    second byte; four from [0xF0] to [0xF4], of which [0xF0] and [0xF4]
    narrow the second byte; anything else is no start of a rune. *)
Fixpoint validFrom (s : string) (lo hi : N) (more : nat) : bool :=
  match s with
  | EmptyString =>
      match more with
      | O => true
      | S _ => false
      end
  | String c s' =>
      let b := Ascii.N_of_ascii c in
      match more with
      | O =>
          if (b <? 128)%N then validFrom s' 128 191 0
          else if (b <? 194)%N then false
          else if (b <=? 223)%N then validFrom s' 128 191 1
          else if (b =? 224)%N then validFrom s' 160 191 2
          else if (b =? 237)%N then validFrom s' 128 159 2
          else if (b <=? 239)%N then validFrom s' 128 191 2
          else if (b =? 240)%N then validFrom s' 144 191 3
          else if (b <=? 243)%N then validFrom s' 128 191 3
          else if (b =? 244)%N then validFrom s' 128 143 3
          else false
      | S more' =>
          if (lo <=? b)%N && (b <=? hi)%N then validFrom s' 128 191 more'
          else false
      end
  end.

(** [utf8.ValidString(s)] *)
Definition ValidString (s : string) : bool := validFrom s 128 191 0.

(** [fs.ValidPath(name)] *)
Definition ValidPath (name : string) : bool :=
  if negb (ValidString name) then false
  else if String.eqb name "." then true
  else
    forallb
      (fun elem =>
         negb (String.eqb elem EmptyString || String.eqb elem "."
               || String.eqb elem ".."))
      (elements name EmptyString).

(** [fs.Sub(fsys, dir)]. The [*subFS] wrapper it makes of a file system
    without a [Sub] method has one, and serves what is under [dir]. *)
Definition fsSub (fsys : FSys) (dir : string) : option FSys :=
  if negb (ValidPath dir) then None
  else if String.eqb dir "." then Some fsys
  else if implSubFS fsys then methodSub fsys dir
  else
    Some
      match lookupUnder (under fsys) dir with
      | Some t =>
          {| implSubFS := true; dirList := dirList t; dirErr := dirErr t;
             under := under t |}
      | None =>
          {| implSubFS := true; dirList := []; dirErr := true; under := [] |}
      end.

(** [type HandlerFunc func(fsys fs.FS, name string) drill.Node], for
    a function that is there. *)
Definition HandlerFunc : Type := FSys -> string -> option Drill.Node.

(** [type Handler struct]: the pattern and the function, which is a
    value of a function type and so may be nil, here [None]. *)
Definition Handler : Type := (string * option HandlerFunc)%type.

(** [type Handlers []Handler], a nil slice being the empty list. *)
Definition Handlers : Type := list Handler.

(** [type FS struct]: the embedded [fs.FS] (nil is [None]) and the
    handlers. *)
Record FS : Type := mkFS {
  FS_ : option FSys;
  handlers : Handlers
}.

Local Open Scope Z_scope.

(** [func (f *FS) Len() int] *)
Definition Len (f : FS) : Z :=
  match FS_ f with
  | None => 0
  | Some fsys => Z.of_nat (length (dirList fsys))
  end.

(** [func (f *FS) OrderedChild(i int) drill.Node]; nil is [None]. *)
Definition OrderedChild (f : FS) (i : Z) : outcome (option FS) :=
  match FS_ f with
  | None => Returns None
  | Some fsys =>
      let subs := dirList fsys in
      if dirErr fsys then Returns None
      else
        let i := Drill.Index i (Z.of_nat (length subs)) in
        if i <? 0 then Returns None
        else
          match subs !! Z.to_nat i with
          | None => Panics "index out of range"
          | Some entry =>
              match fsSub fsys (Name entry) with
              | None => Returns None
              | Some sub =>
                  Returns (Some {| FS_ := Some sub; handlers := handlers f |})
              end
          end
  end.

Local Close Scope Z_scope.

(** [nodes[i] = x] on a slice. *)
Definition store {A : Type} (nodes : list A) (i : nat) (x : A)
  : outcome (list A) :=
  if decide (i < length nodes) then Returns (<[i := x]> nodes)
  else Panics "index out of range".

(** The loop [for i, entry := range subs] of [OrderedChildren], from
    index [i] on. *)
Fixpoint rangeSubs (fsys : FSys) (subs : list DirEntry) (i : nat)
    (nodes : list (option FS)) : outcome (list (option FS)) :=
  match subs with
  | [] => Returns nodes
  | entry :: subs' =>
      match methodSub fsys (Name entry) with
      | Some sub =>
          bind (store nodes i (Some {| FS_ := Some sub; handlers := [] |}))
            (rangeSubs fsys subs' (S i))
      | None => rangeSubs fsys subs' (S i) nodes
      end
  end.

(** [make([]drill.Node, len, cap)]: [len] nil nodes. *)
Definition make (len cap : nat) : list (option FS) := replicate len None.

(** [func (f *FS) OrderedChildren() []drill.Node]; the nil slice is the
    empty list. *)
Definition OrderedChildren (f : FS) : outcome (list (option FS)) :=
  match FS_ f with
  | None => Returns []
  | Some fsys =>
      if negb (implSubFS fsys) then Returns []
      else if dirErr fsys then Returns []
      else
        let subs := dirList fsys in
        let nodes := make 0 (length subs) in
        rangeSubs fsys subs 0 nodes
  end.

(** Whether the file system that [f] wraps is there and has a [Sub]
    method: the assertion [f.FS.(fs.SubFS)]. *)
Definition hasSubFS (f : FS) : bool :=
  match FS_ f with
  | Some fsys => implSubFS fsys
  | None => false
  end.

(** An empty directory, and a directory with the one entry [a], both
    with a [Sub] method. *)
Definition empty_dir : FSys :=
  {| implSubFS := true; dirList := []; dirErr := false; under := [] |}.

Definition one_entry_dir : FSys :=
  {| implSubFS := true;
     dirList := [{| Name := "a"; IsDir := true |}];
     dirErr := false;
     under := [("a", empty_dir)] |}.

(** The same directory behind a file system without a [Sub] method. *)
Definition plain_dir : FSys :=
  {| implSubFS := false;
     dirList := [{| Name := "a"; IsDir := true |}];
     dirErr := false;
     under := [("a", empty_dir)] |}.

(** A name of the one byte [0xFF], which is no UTF-8, and a directory
    whose one entry has that name, behind a file system without a [Sub]
    method. *)
Definition stray_name : string :=
  String (Ascii.ascii_of_N 255) EmptyString.

Definition stray_dir : FSys :=
  {| implSubFS := false;
     dirList := [{| Name := stray_name; IsDir := true |}];
     dirErr := false;
     under := [(stray_name, empty_dir)] |}.

End Filesys.

(** ** Package [drill]: named descent and typed query *)

Module Traversal.

Import Go.

(** One element of [queries ...interface{}]: a string, an int, or a
    value of any other type. *)
Inductive query : Type :=
| QString (s : string)
| QInt (i : Z)
| QOther.

(** What the type switches of [Descend] and [Query] ask of a non-nil
    node of type [N]: whether its dynamic type implements [Descender],
    [UnorderedBranch], [Queryer], [OrderedBranch], and then the method
    they call on it ([Descend], [UnorderedChild], [Query],
    [OrderedChild]). A nil node is [None]. *)
Class Capabilities (N : Type) : Type := {
  asDescender : N -> option (list string -> option N);
  asUnorderedBranch : N -> option (string -> option N);
  asQueryer : N -> option (list query -> option N);
  asOrderedBranch : N -> option (Z -> option N)
}.

(** [func Descend(n Node, names ...string) Node] *)
Fixpoint Descend {N : Type} `{Capabilities N} (n : option N)
    (names : list string) : option N :=
  match names with
  | [] => n
  | name :: names' =>
      match n with
      | None => None
      | Some v =>
          match asDescender v with
          | Some descend => descend names
          | None =>
              match asUnorderedBranch v with
              | Some unorderedChild => Descend (unorderedChild name) names'
              | None => None
              end
          end
      end
  end.

(** [func Query(n Node, queries ...interface{}) Node] *)
Fixpoint Query {N : Type} `{Capabilities N} (n : option N)
    (queries : list query) : option N :=
  match queries with
  | [] => n
  | q :: queries' =>
      match n with
      | None => None
      | Some v =>
          match asQueryer v with
          | Some query => query queries
          | None =>
              match q with
              | QString s =>
                  match asUnorderedBranch v with
                  | Some unorderedChild => Query (unorderedChild s) queries'
                  | None => None
                  end
              | QInt i =>
                  match asOrderedBranch v with
                  | Some orderedChild => Query (orderedChild i) queries'
                  | None => None
                  end
              | QOther => None
              end
          end
      end
  end.

(** A node that is nil, or has no ordered child that is not nil. *)
Definition childless (n : option Drill.Node) : Prop :=
  match n with
  | None => True
  | Some v => Forall (fun c => c = None) (Drill.OrderedChildren v)
  end.

End Traversal.

(** ** Package [markdown]: descent and query over the section tree *)

Module MarkdownQueries.

Import Go Markdown Segments Pipe MarkdownNode Traversal.

(** [func (n *Node) Descend(names ...string) drill.Node]; nil is
    [None]. The variables [ok] and [n] that the callback sets are the
    state of the walk. *)
Fixpoint Descend (n : Node) (names : list string) : option Node :=
  match names with
  | [] => Some n
  | name :: names' =>
      let (ok, n') :=
        WalkChildSections n
          (fun (st : bool * Node) section =>
             if negb (String.eqb (sectionNameOf section) name) then (st, false)
             else ((true, derive (snd st) section), true))
          (false, n) in
      if negb ok then None else Descend n' names'
  end.

(** [func (n *Node) Query(queries ...interface{}) drill.Node] *)
Fixpoint Query (n : Node) (queries : list query) : option Node :=
  match queries with
  | [] => Some n
  | QString q :: queries' =>
      let section :=
        WalkChildSections n
          (fun (section : option node) child =>
             if String.eqb (sectionNameOf child) q then (Some child, true)
             else (section, false))
          None in
      match section with
      | None => None
      | Some section => Query (derive n section) queries'
      end
  | QInt q :: queries' =>
      let q := Drill.Index q (Len n) in
      if (q <? 0)%Z then None
      else
        let found :=
          WalkChildSections n
            (fun (st : Z * option node) child =>
               let (count, section) := st in
               if (count =? q)%Z then ((count, Some child), true)
               else (((count + 1)%Z, section), false))
            (0%Z, None) in
        match snd found with
        | None => None
        | Some section => Query (derive n section) queries'
        end
  | QOther :: _ => None
  end.

(** [*Node] as the generic traversal sees it: it implements
    [Descender], [UnorderedBranch], [Queryer] and [OrderedBranch]. *)
#[export] Instance node_capabilities : Capabilities Node := {
  asDescender n := Some (Descend n);
  asUnorderedBranch n := Some (UnorderedChild n);
  asQueryer n := Some (Query n);
  asOrderedBranch n := Some (OrderedChild n)
}.

(** The same node behind a type that has the two branch interfaces but
    neither [Descend] nor [Query]. *)
Definition branches_only : Capabilities Node := {|
  asDescender := fun _ => None;
  asUnorderedBranch := fun n => Some (UnorderedChild n);
  asQueryer := fun _ => None;
  asOrderedBranch := fun n => Some (OrderedChild n)
|}.

(** The sections among the children of the wrapped node, in document
    order. *)
Definition childSections (n : Node) : list node :=
  List.filter isSection (children (section n)).

(** [x] is a node of the tree under [p]. *)
Inductive below (p : node) : node -> Prop :=
| below_child x : x ∈ children p -> below p x
| below_deeper x y : below p x -> y ∈ children x -> below p y.

(** [m] is a view of a section of the tree under the node that [n]
    wraps, with the source and the renderer of [n]. *)
Definition view_below (n m : Node) : Prop :=
  source m = source n /\ renderer m = renderer n /\
  below (section n) (section m) /\ isSection (section m) = true.

(** The error that ends the stream of a rendering that returns [err]:
    the error itself, or [io.EOF] when there is none. *)
Definition last_error (err : option string) : error :=
  match err with
  | Some msg => Failure msg
  | None => EOF
  end.

(** What the consumer may have read of a rendering that writes [chunks]
    and returns [err]: chunks from the first on, then, once it has read
    them all, the last error as often as it reads again. *)
Definition streamed (chunks : list string) (err : option string)
    (reads : list read) : Prop :=
  exists (got : list string) (m : nat),
    reads = map Data got ++ replicate m (ReadError (last_error err)) /\
    got `prefix_of` chunks /\
    (0 < m -> got = chunks).

(** What holds of the stream and of what has been read so far, when the
    rendering writes [chunks] and returns [err]. *)
Definition on_track (chunks : list string) (err : option string)
    (s : stream) (reads : list read) : Prop :=
  match producer s with
  | Rendering todo e =>
      e = err /\ werr (channel s) = None /\
      exists got,
        reads = map Data got /\
        chunks = got ++ option_list (pending (channel s)) ++ todo
  | Rendered e =>
      e = err /\ channel s = newPipe /\ reads = map Data chunks
  | Closing =>
      channel s = {| pending := None; werr := Failure <$> err |} /\
      exists m,
        reads = map Data chunks ++ replicate m (ReadError (last_error err))
  | Finished =>
      channel s = {| pending := None; werr := Some (last_error err) |} /\
      exists m,
        reads = map Data chunks ++ replicate m (ReadError (last_error err))
  end.

End MarkdownQueries.

(** ** Package [filesys]: handlers and the unordered methods *)

Module FilesysHandlers.

Import Go Filesys.

(** What a child of an [FS] is: another [FS], or the node that a handler
    made of a file. *)
Inductive child : Type :=
| Directory (f : FS)
| Handled (n : Drill.Node).

Section Environment.

(** [path.Match(pattern, name)]: whether the name matches, or [None] for
    the error of a malformed pattern. *)
Variable pathMatch : string -> string -> option bool.

(** [fs.Stat(fsys, name)], as far as it is read: [IsDir()] of the file
    information, or [None] for an error. *)
Variable fsStat : FSys -> string -> option bool.

(** The loop of [NewFS] over the handlers, from index [i] on: the index
    and the pattern of the first handler whose pattern is malformed. *)
Fixpoint firstMalformed (i : nat) (handlers : Handlers)
  : option (nat * string) :=
  match handlers with
  | [] => None
  | (pattern, _) :: handlers' =>
      match pathMatch pattern EmptyString with
      | None => Some (i, pattern)
      | Some _ => firstMalformed (S i) handlers'
      end
  end.

(** [func NewFS(fsys fs.FS, handlers Handlers)], which returns an [FS]
    or an error; the error is kept as the index and the pattern that its
    message names. *)
Definition NewFS (fsys : option FSys) (handlers : Handlers)
  : FS + (nat * string) :=
  match firstMalformed 0 handlers with
  | Some e => inr e
  | None => inl {| FS_ := fsys; handlers := handlers |}
  end.

(** [func (hs Handlers) Match(file string) HandlerFunc]; the error of
    [path.Match] is dropped, and with it the match. What is returned is
    the field [Func] of the handler, nil or not. *)
Fixpoint Match (hs : Handlers) (file : string) : option HandlerFunc :=
  match hs with
  | [] => None
  | (pattern, func) :: hs' =>
      match pathMatch pattern file with
      | Some true => func
      | _ => Match hs' file
      end
  end.

(** The handler [h] at index [i] is the first of [hs] whose pattern
    matches [file]. *)
Definition firstMatch (hs : Handlers) (file : string) (i : nat) (h : Handler)
  : Prop :=
  hs !! i = Some h /\
  pathMatch (fst h) file = Some true /\
  forall j h', (j < i)%nat -> hs !! j = Some h' ->
               pathMatch (fst h') file <> Some true.

(** [func (f *FS) handle(name string) drill.Node], with [f.FS] as
    [fsys]: where [handle] is called it is not nil. *)
Definition handle (f : FS) (fsys : FSys) (name : string) : option Drill.Node :=
  match Match (handlers f) name with
  | None => None
  | Some handler => handler fsys name
  end.

(** [func (f *FS) Handlers() Handlers] *)
Definition HandlersOf (f : FS) : Handlers := handlers f.

Definition handled (f : FS) (fsys : FSys) (name : string) : option child :=
  Handled <$> handle f fsys name.

(** [func (f *FS) UnorderedChild(name string) drill.Node] *)
Definition UnorderedChild (f : FS) (name : string) : option child :=
  match FS_ f with
  | None => None
  | Some fsys =>
      match fsStat fsys name with
      | None => handled f fsys name
      | Some false => handled f fsys name
      | Some true =>
          match fsSub fsys name with
          | None => None
          | Some sub =>
              Some (Directory {| FS_ := Some sub; handlers := handlers f |})
          end
      end
  end.

(** The loop of [UnorderedChildren] over the entries. *)
Fixpoint rangeEntries (f : FS) (fsys : FSys) (entries : list DirEntry)
    (children : gmap string child) : gmap string child :=
  match entries with
  | [] => children
  | entry :: entries' =>
      let name := Name entry in
      rangeEntries f fsys entries'
        (if IsDir entry then
           match fsSub fsys name with
           | Some sub =>
               let dir := {| FS_ := Some sub; handlers := handlers f |} in
               <[name := Directory dir]> children
           | None => children
           end
         else
           match handle f fsys name with
           | Some sub => <[name := Handled sub]> children
           | None => children
           end)
  end.

(** [func (f *FS) UnorderedChildren() map[string]drill.Node]: on a nil
    [f.FS], [fs.ReadDir] calls [Open] on the nil interface. *)
Definition UnorderedChildren (f : FS) : outcome (gmap string child) :=
  match FS_ f with
  | None => Panics "invalid memory address or nil pointer dereference"
  | Some fsys =>
      if dirErr fsys then Returns ∅
      else Returns (rangeEntries f fsys (dirList fsys) ∅)
  end.



End Environment.

(** A matcher of literal patterns, for which an opening bracket alone
    is malformed, and a handler that makes a leaf of the name of the
    file. *)
Definition literal (pattern name : string) : option bool :=
  if String.eqb pattern "[" then None else Some (String.eqb pattern name).

Definition leaf_of : HandlerFunc := fun _ name => Some (Drill.Leaf name).



End FilesysHandlers.

(** ** The segmenter: headings and runs *)

Module Runs.

Import Go Markdown Segments.

(** The headings of the level of the pass among the children, in
    order. *)
Definition headingsAt (level : Z) (cs : list node) : list heading :=
  omap (opens level) cs.

(** Whether the children start with something else than a heading of
    the level of the pass. *)
Definition leads (level : Z) (cs : list node) : bool :=
  match cs with
  | [] => false
  | c :: _ =>
      match opens level c with
      | Some _ => false
      | None => true
      end
  end.

(** No child is a heading of the level of the pass. *)
Definition run_at (level : Z) (cs : list node) : Prop :=
  forall h, HeadingNode h ∈ cs -> Level h <> level.

End Runs.

(** * Properties *)

(** ** Properties of package [drill] *)

Module DrillFacts.

Import Go Drill.

Local Open Scope Z_scope.

Lemma wrap_id z : is_int z -> wrap z = z.
Proof.
  unfold is_int, int_min, int_max, wrap. intros Hz.
  rewrite Z.mod_small; lia.
Qed.

(** C4. On Go [int] arguments, [Index i len] is [i] when
    [0 <= i < len]; a negative [i] is wrapped by adding [len], so that
    [Index (-1) len] is [len - 1] for a positive [len]; the result is
    negative when [len <= 0], when [i >= len] and when [i + len < 0]. *)
Theorem Index_spec (i len : Z) :
  is_int i -> is_int len ->
  (0 <= i < len -> Index i len = i) /\
  (i < 0 -> 0 <= i + len -> Index i len = i + len) /\
  (0 < len -> Index (-1) len = len - 1) /\
  (len <= 0 \/ i >= len \/ i + len < 0 -> Index i len < 0).
Proof.
  intros Hi Hlen.
  assert (Hw : i < 0 -> 0 < len -> wrap (i + len) = i + len).
  { intros. apply wrap_id. unfold is_int, int_min, int_max in *. lia. }
  assert (Hm : 0 < len -> wrap (-1 + len) = len - 1).
  { intros. rewrite wrap_id; [lia|].
    unfold is_int, int_min, int_max in *. lia. }
  unfold Index. cbv zeta.
  destruct (Z.leb_spec len 0) as [Hle|Hpos]; [repeat split; lia|].
  rewrite Hm by lia. change (-1 <? 0) with true. cbv iota.
  destruct (Z.ltb_spec i 0) as [Hneg|Hnn].
  - rewrite Hw by lia. repeat split; intros; now repeat cmp_cases.
  - repeat split; intros; now repeat cmp_cases.
Qed.

Lemma Index_spec_witness :
  Index 2 5 = 2 /\ Index (-2) 5 = 3 /\ Index (-1) 5 = 4 /\ Index 7 5 < 0.
Proof.
  assert (H2 : is_int 2) by (unfold is_int, int_min, int_max; lia).
  assert (Hm2 : is_int (-2)) by (unfold is_int, int_min, int_max; lia).
  assert (H5 : is_int 5) by (unfold is_int, int_min, int_max; lia).
  assert (H7 : is_int 7) by (unfold is_int, int_min, int_max; lia).
  split; [exact (proj1 (Index_spec 2 5 H2 H5) ltac:(lia))|].
  split; [exact (proj1 (proj2 (Index_spec (-2) 5 Hm2 H5))
                   ltac:(lia) ltac:(lia))|].
  split; [exact (proj1 (proj2 (proj2 (Index_spec 2 5 H2 H5))) ltac:(lia))|].
  exact (proj2 (proj2 (proj2 (Index_spec 7 5 H7 H5))) ltac:(lia)).
Defined.

Local Close Scope Z_scope.

(** The loop stops with the calls it made. *)
Lemma rangeChildren_stuck (o : Node)
    (call : list Node -> Node -> option (list Node))
    (cs : list (option Node)) (c : Node) (d : list Node) :
  (forall d', call d' o = None) ->
  Some c ∈ cs ->
  rangeChildren (Some o) call cs d = None.
Proof.
  intros Hcall Hin. revert d.
  induction cs as [|[x|] cs IHcs]; intros d; cbn [rangeChildren].
  - inversion Hin.
  - now rewrite Hcall.
  - apply IHcs.
    apply elem_of_cons in Hin as [Heq|Hin]; [discriminate|assumption].
Qed.

(** A loop over nil children only makes no call. *)
Lemma rangeChildren_nil (ob : option Node)
    (call : list Node -> Node -> option (list Node))
    (cs : list (option Node)) (d : list Node) :
  Forall (fun c => c = None) cs ->
  rangeChildren ob call cs d = Some d.
Proof.
  induction 1 as [|c cs Hc _ IH]; [reflexivity|].
  subst c. exact IH.
Qed.

(** A branch with a non-nil child makes [descendants] call itself on
    the same branch again: no amount of stack is enough. *)
Lemma descendants_diverges (fuel : nat) (d : list Node) (f : string)
    (cs : list (option Node)) (c : Node) :
  Some c ∈ cs -> descendants fuel d (Branch f cs) = None.
Proof.
  intros Hin. revert d.
  induction fuel as [|fuel IH]; intros d; [reflexivity|].
  cbn [descendants OrderedChildren asOrderedBranch].
  now apply rangeChildren_stuck with (c := c).
Qed.

(** A branch whose children are all nil has no descendants, and
    [descendants] returns at once. *)
Lemma descendants_nil_children (fuel : nat) (d : list Node) (f : string)
    (cs : list (option Node)) :
  Forall (fun c => c = None) cs ->
  descendants (S fuel) d (Branch f cs) = Some d.
Proof.
  intros Hnil. cbn [descendants OrderedChildren].
  now apply rangeChildren_nil.
Qed.

(** C1. [Descendants] does not return on a branch that has one non-nil
    child: whatever the stack it is given, the call nest is deeper,
    while the documented enumeration of that branch is the one child. *)
Theorem Descendants_one_child_diverges :
  (forall fuel, Descendants fuel (Some one_child) = None) /\
  preorder one_child = [Leaf "a"].
Proof.
  split; [|reflexivity].
  intros fuel. unfold Descendants, one_child.
  cbn [asOrderedBranch].
  apply descendants_diverges with (c := Leaf "a").
  apply list_elem_of_here.
Qed.

End DrillFacts.

(** ** Properties of the segmenter *)

Module SegmentsFacts.

Import Go Markdown Segments.

Local Open Scope Z_scope.

(** *** The loop *)

Lemma step_opens source level st c h :
  opens level c = Some h ->
  step source level st c =
    let st' :=
      if emitted (section st) then
        {| parent := InsertBefore (parent st) (cur st) (asNode (section st));
           cur := S (cur st);
           section := section st;
           subs := subs st ++ [cur st] |}
      else st in
    {| parent := parent st'; cur := S (cur st');
       section := fresh source h; subs := subs st' |}.
Proof.
  destruct c as [h'| |]; cbn [opens]; try discriminate.
  unfold step. destruct (Level h' =? level); [|discriminate].
  now intros [= ->].
Qed.

Lemma step_extends source level st c :
  opens level c = None ->
  step source level st c =
    {| parent := delete (cur st) (parent st); cur := cur st;
       section := extend (section st) c; subs := subs st |}.
Proof.
  destruct c as [h'| |]; cbn [opens]; try reflexivity.
  unfold step. now destruct (Level h' =? level).
Qed.

Lemma opens_heading level c h :
  opens level c = Some h -> c = HeadingNode h /\ Level h = level.
Proof.
  destruct c as [h'| |]; cbn [opens]; try discriminate.
  destruct (Z.eqb_spec (Level h') level); [|discriminate].
  now intros [= ->].
Qed.

(** The loop invariant: [parent] is what has been settled, followed by
    the children still to visit, and [cur] stands on the first of
    them. *)
Lemma loop_grouped source level rest : forall out st,
  parent st = out ++ rest ->
  cur st = length out ->
  let st' := finish (fold_left (step source level) rest st) in
  parent st' = out ++ grouped source level (section st) rest /\
  subs st' =
    subs st ++
    sectionPositions (length out) (grouped source level (section st) rest).
Proof.
  induction rest as [|c rest IH]; intros out st Hp Hc; cbn zeta.
  - cbn [fold_left grouped]. unfold finish, close.
    destruct (emitted (section st)); cbn [parent subs sectionPositions asNode].
    + rewrite Hp, !app_nil_r. auto.
    + rewrite Hp, !app_nil_r. auto.
  - cbn [fold_left grouped].
    destruct (opens level c) as [h|] eqn:Ho.
    + rewrite (step_opens _ _ _ _ _ Ho). cbn zeta.
      destruct (opens_heading _ _ _ Ho) as [-> _].
      unfold close.
      destruct (emitted (section st)) eqn:He; cbn [parent cur section subs].
      * specialize (IH (out ++ [asNode (section st); HeadingNode h])
          {| parent := InsertBefore (parent st) (cur st) (asNode (section st));
             cur := S (S (cur st)); section := fresh source h;
             subs := subs st ++ [cur st] |}).
        cbn [parent cur section subs] in IH.
        destruct IH as [IHp IHs].
        { rewrite Hp, Hc. unfold InsertBefore.
          rewrite take_app_length, drop_app_length.
          now rewrite <- app_assoc. }
        { rewrite Hc, length_app. cbn [length]. lia. }
        split.
        { rewrite IHp. now rewrite <- app_assoc. }
        { rewrite IHs, Hc, <- app_assoc. f_equal.
          cbn [app sectionPositions asNode]. f_equal.
          rewrite length_app. cbn [length].
          now replace (length out + 2)%nat with (S (S (length out))) by lia. }
      * specialize (IH (out ++ [HeadingNode h])
          {| parent := parent st; cur := S (cur st);
             section := fresh source h; subs := subs st |}).
        cbn [parent cur section subs] in IH.
        destruct IH as [IHp IHs].
        { rewrite Hp. now rewrite <- app_assoc. }
        { rewrite Hc, length_app. cbn [length]. lia. }
        split.
        { rewrite IHp. now rewrite <- app_assoc. }
        { rewrite IHs. f_equal. cbn [app sectionPositions].
          rewrite length_app. cbn [length].
          now replace (length out + 1)%nat with (S (length out)) by lia. }
    + rewrite (step_extends _ _ _ _ Ho).
      specialize (IH out
        {| parent := delete (cur st) (parent st); cur := cur st;
           section := extend (section st) c; subs := subs st |}).
      cbn [parent cur section subs] in IH.
      apply IH; [|assumption].
      rewrite Hp, Hc. apply delete_middle.
Qed.

(** One round keeps the cursor on the children still to visit. *)
Lemma step_cursor source level st c out rest :
  parent st = out ++ c :: rest ->
  cur st = length out ->
  exists out',
    parent (step source level st c) = out' ++ rest /\
    cur (step source level st c) = length out'.
Proof.
  intros Hp Hc.
  destruct (opens level c) as [h|] eqn:Ho.
  - rewrite (step_opens _ _ _ _ _ Ho). cbn zeta.
    destruct (emitted (section st)); cbn [parent cur].
    + exists (out ++ [asNode (section st); c]). split.
      * rewrite Hp, Hc. unfold InsertBefore.
        rewrite take_app_length, drop_app_length.
        now rewrite <- app_assoc.
      * rewrite Hc, length_app. cbn [length]. lia.
    + exists (out ++ [c]). split.
      * rewrite Hp. now rewrite <- app_assoc.
      * rewrite Hc, length_app. cbn [length]. lia.
  - rewrite (step_extends _ _ _ _ Ho). cbn [parent cur].
    exists out. split; [|assumption].
    rewrite Hp, Hc. apply delete_middle.
Qed.

(** Folding over the children [parent] had at first is following the
    sibling links: at every round [current] is the child of [parent]
    under the cursor. *)
Lemma loop_current source level (visited : list node) : forall c rest st out,
  parent st = out ++ visited ++ c :: rest ->
  cur st = length out ->
  let st' := fold_left (step source level) visited st in
  parent st' !! cur st' = Some c.
Proof.
  induction visited as [|v visited IH]; intros c rest st out Hp Hc; cbn zeta.
  - cbn [fold_left]. rewrite Hp, Hc. cbn [app].
    now apply list_lookup_middle.
  - cbn [fold_left].
    destruct (step_cursor source level st v out (visited ++ c :: rest) Hp Hc)
      as (out' & Hp' & Hc').
    exact (IH c rest _ out' Hp' Hc').
Qed.

(** When the children [parent] had at first have all been visited, the
    cursor is past the last child: [current] is nil and the loop ends. *)
Lemma loop_end source level (cs : list node) : forall st out,
  parent st = out ++ cs ->
  cur st = length out ->
  let st' := fold_left (step source level) cs st in
  cur st' = length (parent st').
Proof.
  induction cs as [|c cs IH]; intros st out Hp Hc; cbn zeta.
  - cbn [fold_left]. rewrite Hp, Hc. now rewrite app_nil_r.
  - cbn [fold_left].
    destruct (step_cursor source level st c out cs Hp Hc)
      as (out' & Hp' & Hc').
    exact (IH _ out' Hp' Hc').
Qed.

Lemma run_grouped source level cs :
  parent (run source level cs) = grouped source level NewSection cs /\
  subs (run source level cs) =
    sectionPositions 0 (grouped source level NewSection cs).
Proof.
  unfold run.
  exact (loop_grouped source level cs []
           {| parent := cs; cur := 0%nat; section := NewSection; subs := [] |}
           eq_refl eq_refl).
Qed.

(** Going through [subs] by position is mapping [recurse] over the
    child list. *)
Lemma recurseAt_fold compile (post : list node) : forall pre,
  fold_left (recurseAt compile) (sectionPositions (length pre) post)
    (pre ++ post) =
  pre ++ map (recurse compile) post.
Proof.
  induction post as [|x post IH]; intros pre; [reflexivity|].
  assert (Hnext : forall y : node,
    fold_left (recurseAt compile) (sectionPositions (S (length pre)) post)
      (pre ++ y :: post) =
    pre ++ y :: map (recurse compile) post).
  { intros y. specialize (IH (pre ++ [y])).
    rewrite length_app in IH. cbn [length] in IH.
    replace (length pre + 1)%nat with (S (length pre)) in IH by lia.
    now rewrite <- !app_assoc in IH. }
  destruct x as [h|k cs|[h|] name cs];
    cbn [sectionPositions map recurse fold_left].
  - apply Hnext.
  - apply Hnext.
  - unfold recurseAt at 2. rewrite list_lookup_middle by reflexivity.
    rewrite insert_app_r_alt by lia.
    rewrite Nat.sub_diag. cbn [insert list_insert]. apply Hnext.
  - unfold recurseAt at 2. rewrite list_lookup_middle by reflexivity.
    apply Hnext.
Qed.

Lemma compileSection_gas_grouped gas source level cs :
  compileSection_gas gas source level cs =
    if level >=? 6 then grouped source level NewSection cs
    else
      match gas with
      | O => grouped source level NewSection cs
      | S gas' =>
          map (recurse (compileSection_gas gas' source (level + 1)))
            (grouped source level NewSection cs)
      end.
Proof.
  destruct (run_grouped source level cs) as [Hp Hs].
  destruct gas as [|gas']; cbn [compileSection_gas]; cbn zeta;
    rewrite Hp; [reflexivity|].
  rewrite Hs. destruct (level >=? 6); [reflexivity|].
  exact (recurseAt_fold _ _ []).
Qed.

Lemma recurse_ext (f g : list node -> list node) (l : list node) :
  (forall ch, f ch = g ch) -> map (recurse f) l = map (recurse g) l.
Proof.
  intros Hfg. apply map_ext. intros [h|k cs|[h|] name cs]; cbn [recurse];
    now rewrite ?Hfg.
Qed.

(** More [gas] than the levels left below 6 changes nothing. *)
Lemma compileSection_gas_enough source (gas : nat) : forall level cs,
  (Z.to_nat (6 - level) <= gas)%nat ->
  compileSection_gas gas source level cs =
  compileSection_gas (Z.to_nat (6 - level)) source level cs.
Proof.
  induction gas as [|gas IH]; intros level cs Hgas.
  - now replace (Z.to_nat (6 - level)) with 0%nat by lia.
  - rewrite !compileSection_gas_grouped.
    destruct (Z.geb_spec level 6) as [Hge|Hlt]; [reflexivity|].
    replace (Z.to_nat (6 - level)) with (S (Z.to_nat (6 - (level + 1))))
      by lia.
    apply recurse_ext. intros ch. apply IH. lia.
Qed.

Lemma gas_step level :
  level < 6 -> Z.to_nat (6 - level) = S (Z.to_nat (6 - (level + 1))).
Proof. lia. Qed.

(** [compileSection] as a list function. *)
Lemma compileSection_grouped source level cs :
  compileSection source level cs =
    if level >=? 6 then grouped source level NewSection cs
    else
      map (recurse (compileSection source (level + 1)))
        (grouped source level NewSection cs).
Proof.
  unfold compileSection. rewrite compileSection_gas_grouped.
  destruct (Z.geb_spec level 6) as [Hge|Hlt]; [reflexivity|].
  now rewrite (gas_step level Hlt).
Qed.

(** *** Trees *)

Lemma node_all_unfold (P : node -> Prop) (n : node) :
  node_all P n <-> P n /\ Forall (node_all P) (children n).
Proof.
  assert (Hall : forall l,
    (fix all (l : list node) : Prop :=
       match l with
       | [] => True
       | x :: l' => node_all P x /\ all l'
       end) l <-> Forall (node_all P) l).
  { induction l as [|x l IH]; [split; auto|].
    rewrite Forall_cons. now rewrite IH. }
  destruct n as [h|k cs|hd name cs]; cbn [node_all children].
  - split; [intros [H _]; auto|intros [H _]; auto].
  - now rewrite Hall.
  - now rewrite Hall.
Qed.

(** Induction on a tree, with the hypothesis for every child. *)
Lemma node_deep_ind (P : node -> Prop) :
  (forall h, P (HeadingNode h)) ->
  (forall k cs, Forall P cs -> P (OtherNode k cs)) ->
  (forall hd name cs, Forall P cs -> P (SectionNode hd name cs)) ->
  forall n, P n.
Proof.
  intros Hh Ho Hs.
  fix IH 1. intros [h|k cs|hd name cs].
  - apply Hh.
  - apply Ho. induction cs as [|c cs IHcs]; constructor; [apply IH|apply IHcs].
  - apply Hs. induction cs as [|c cs IHcs]; constructor; [apply IH|apply IHcs].
Qed.

Lemma node_all_here (P : node -> Prop) (n : node) : node_all P n -> P n.
Proof. rewrite node_all_unfold. now intros [H _]. Qed.

Lemma node_all_children (P : node -> Prop) (n : node) :
  node_all P n -> Forall (node_all P) (children n).
Proof. rewrite node_all_unfold. now intros [_ H]. Qed.

(** What holds of every node of a tree that satisfies [Q] everywhere
    holds everywhere in it. *)
Lemma node_all_weaken (P Q : node -> Prop) :
  (forall x, node_all Q x -> P x) ->
  forall n, node_all Q n -> node_all P n.
Proof.
  intros HQP. induction n as [h|k cs IH|hd name cs IH] using node_deep_ind;
    intros HQ; apply node_all_unfold; (split; [now apply HQP|]);
    apply node_all_children in HQ; cbn [children] in *.
  - constructor.
  - rewrite Forall_forall in *. intros x Hx. apply (IH x Hx), (HQ x Hx).
  - rewrite Forall_forall in *. intros x Hx. apply (IH x Hx), (HQ x Hx).
Qed.

Lemma plain_not_section (n : node) : plain n -> isSection n = false.
Proof. apply node_all_here. Qed.

Lemma plain_children (n : node) : plain n -> Forall plain (children n).
Proof. apply node_all_children. Qed.

Lemma plain_orphan_first (l : list node) : Forall plain l -> orphan_first l.
Proof.
  intros Hl i x Hi Ho. rewrite Forall_forall in Hl.
  assert (Hx : x ∈ l) by (apply list_elem_of_lookup; eauto).
  apply Hl, plain_not_section in Hx.
  destruct x as [h|k cs|[h|] name cs]; discriminate.
Qed.

Lemma plain_unsection (l : list node) :
  Forall plain l -> flat_map unsection l = l.
Proof.
  induction 1 as [|x l Hx _ IH]; [reflexivity|].
  cbn [flat_map]. rewrite IH.
  apply plain_not_section in Hx.
  destruct x as [h|k cs|hd name cs]; [reflexivity|reflexivity|discriminate].
Qed.

Lemma unsection_section hd name cs :
  unsection (SectionNode hd name cs) = flat_map unsection cs.
Proof.
  cbn [unsection]. induction cs as [|c cs IH]; [reflexivity|].
  cbn [flat_map]. now rewrite IH.
Qed.

(** *** The child list after one pass *)

Lemma close_elem (s : Section) (x : node) :
  x ∈ close s -> x = asNode s.
Proof.
  unfold close. destruct (emitted s); intros Hx.
  - now apply list_elem_of_singleton in Hx.
  - inversion Hx.
Qed.

Lemma emitted_heading (s : Section) (h : heading) :
  Heading s = Some h -> emitted s = true.
Proof. unfold emitted. now intros ->. Qed.

(** What stands in the child list after a pass: headings of the level of
    the pass, where they were, and sections, each with the heading that
    opened it (or with what the section under construction had) and with
    children taken from the list. *)
Lemma grouped_elem source level (cs : list node) : forall s x,
  x ∈ grouped source level s cs ->
  (exists h, x = HeadingNode h /\ Level h = level /\ x ∈ cs) \/
  (exists hd name ch,
     x = SectionNode hd name ch /\
     ((hd = Heading s /\ name = Name s) \/
      (exists h, hd = Some h /\ name = sectionName source h /\
                 Level h = level /\ HeadingNode h ∈ cs)) /\
     ch ⊆ Children s ++ cs).
Proof.
  induction cs as [|c cs IH]; intros s x Hx; cbn [grouped] in Hx.
  - apply close_elem in Hx. subst x. right.
    exists (Heading s), (Name s), (Children s).
    split; [reflexivity|]. split; [now left|]. now rewrite app_nil_r.
  - destruct (opens level c) as [h|] eqn:Ho.
    + destruct (opens_heading _ _ _ Ho) as [-> Hl].
      apply elem_of_app in Hx as [Hx|Hx].
      { apply close_elem in Hx. subst x. right.
        exists (Heading s), (Name s), (Children s).
        split; [reflexivity|]. split; [now left|].
        intros y Hy. apply elem_of_app. now left. }
      apply elem_of_cons in Hx as [->|Hx].
      { left. exists h. split; [reflexivity|]. split; [assumption|].
        apply list_elem_of_here. }
      destruct (IH _ _ Hx) as [(h' & -> & Hl' & Hin)|
                               (hd & name & ch & -> & Hhd & Hch)].
      { left. exists h'. split; [reflexivity|]. split; [assumption|].
        now apply list_elem_of_further. }
      right. exists hd, name, ch. split; [reflexivity|]. split.
      { right. destruct Hhd as [[-> ->]|(h' & -> & -> & Hl' & Hin)].
        - exists h. cbn [fresh Heading Name]. repeat split; try assumption.
          apply list_elem_of_here.
        - exists h'. repeat split; try assumption.
          now apply list_elem_of_further. }
      intros y Hy. apply Hch in Hy. cbn [fresh Children app] in Hy.
      apply elem_of_app. right. now apply list_elem_of_further.
    + destruct (IH _ _ Hx) as [(h' & -> & Hl' & Hin)|
                               (hd & name & ch & -> & Hhd & Hch)].
      { left. exists h'. split; [reflexivity|]. split; [assumption|].
        now apply list_elem_of_further. }
      right. exists hd, name, ch. split; [reflexivity|]. split.
      { destruct Hhd as [[-> ->]|(h' & -> & -> & Hl' & Hin)].
        - now left.
        - right. exists h'. repeat split; try assumption.
          now apply list_elem_of_further. }
      intros y Hy. apply Hch in Hy. cbn [extend Children] in Hy.
      rewrite <- app_assoc in Hy. exact Hy.
Qed.

(** A section under construction that has a heading is what the pass
    leaves first. *)
Lemma grouped_head source level (cs : list node) : forall s h,
  Heading s = Some h ->
  exists name ch,
    grouped source level s cs !! 0%nat = Some (SectionNode (Some h) name ch).
Proof.
  induction cs as [|c cs IH]; intros s h Hs; cbn [grouped].
  - unfold close. rewrite (emitted_heading s h Hs).
    exists (Name s), (Children s). unfold asNode. now rewrite Hs.
  - destruct (opens level c) as [h'|].
    + unfold close. rewrite (emitted_heading s h Hs).
      exists (Name s), (Children s). unfold asNode. now rewrite Hs.
    + apply IH. exact Hs.
Qed.

(** A section without a heading is left at the front only, and only by a
    section under construction that has none. *)
Lemma grouped_orphan source level (cs : list node) : forall s i x,
  grouped source level s cs !! i = Some x ->
  isOrphan x = true ->
  i = 0%nat /\ Heading s = None.
Proof.
  induction cs as [|c cs IH]; intros s i x Hi Hx; cbn [grouped] in Hi.
  - unfold close in Hi. destruct (emitted s); [|discriminate].
    destruct i as [|i]; [|discriminate].
    injection Hi as <-. unfold asNode, isOrphan in Hx.
    destruct (Heading s); [discriminate|auto].
  - destruct (opens level c) as [h|] eqn:Ho; [|exact (IH _ _ _ Hi Hx)].
    destruct (opens_heading _ _ _ Ho) as [-> _].
    assert (Hrest : forall j, grouped source level (fresh source h) cs !! j
                              = Some x -> False).
    { intros j Hj. destruct (IH _ _ _ Hj Hx) as [_ Hn]. discriminate. }
    unfold close in Hi. destruct (emitted s).
    + destruct i as [|[|i]]; cbn in Hi.
      * injection Hi as <-. unfold asNode, isOrphan in Hx.
        destruct (Heading s); [discriminate|auto].
      * injection Hi as <-. discriminate.
      * now apply Hrest in Hi.
    + destruct i as [|i]; cbn in Hi.
      * injection Hi as <-. discriminate.
      * now apply Hrest in Hi.
Qed.

(** A heading that stays in the child list is followed there by the
    section it opened. *)
Lemma grouped_heading_next source level (cs : list node) : forall s i h,
  grouped source level s cs !! i = Some (HeadingNode h) ->
  exists name ch,
    grouped source level s cs !! S i = Some (SectionNode (Some h) name ch).
Proof.
  induction cs as [|c cs IH]; intros s i h Hi; cbn [grouped] in *.
  - unfold close in Hi. destruct (emitted s); [|discriminate].
    destruct i as [|i]; discriminate.
  - destruct (opens level c) as [h'|] eqn:Ho; [|exact (IH _ _ _ Hi)].
    destruct (opens_heading _ _ _ Ho) as [-> _].
    unfold close in *. destruct (emitted s).
    + destruct i as [|[|i]]; cbn in Hi |- *.
      * discriminate.
      * injection Hi as ->. now apply grouped_head.
      * exact (IH _ _ _ Hi).
    + destruct i as [|i]; cbn in Hi |- *.
      * injection Hi as ->. now apply grouped_head.
      * exact (IH _ _ _ Hi).
Qed.

Lemma not_emitted_children (s : Section) : emitted s = false -> Children s = [].
Proof.
  unfold emitted, ChildCount. destruct (Heading s); [discriminate|].
  destruct (Children s) as [|c cs]; [reflexivity|].
  cbn [orb length]. intros H. apply Z.ltb_ge in H. lia.
Qed.

(** Taking the sections of one pass away gives the children back, in
    their order. *)
Lemma grouped_unwrap source level (cs : list node) : forall s,
  flat_map unwrap (grouped source level s cs) = Children s ++ cs.
Proof.
  assert (Hclose : forall s, flat_map unwrap (close s) = Children s).
  { intros s. unfold close. destruct (emitted s) eqn:He.
    - cbn [flat_map unwrap asNode]. apply app_nil_r.
    - now rewrite (not_emitted_children s He). }
  induction cs as [|c cs IH]; intros s; cbn [grouped].
  - now rewrite Hclose, app_nil_r.
  - destruct (opens level c) as [h|] eqn:Ho.
    + destruct (opens_heading _ _ _ Ho) as [-> _].
      rewrite flat_map_app, Hclose. cbn [flat_map unwrap].
      now rewrite IH.
    + rewrite IH. cbn [extend Children]. now rewrite <- app_assoc.
Qed.

(** The cases of [grouped_elem] for a whole pass over a plain list. *)
Lemma grouped_cases source level (cs : list node) (x : node) :
  Forall plain cs ->
  x ∈ grouped source level NewSection cs ->
  (exists h, x = HeadingNode h /\ Level h = level) \/
  (exists ch, x = SectionNode None EmptyString ch /\ Forall plain ch) \/
  (exists h ch, x = SectionNode (Some h) (sectionName source h) ch /\
                Level h = level /\ Forall plain ch).
Proof.
  intros Hcs Hx.
  assert (Hsub : forall ch,
            ch ⊆ Children NewSection ++ cs -> Forall plain ch).
  { intros ch Hch. rewrite Forall_forall in *. intros y Hy.
    apply Hcs. apply Hch in Hy. exact Hy. }
  destruct (grouped_elem _ _ _ _ _ Hx)
    as [(h & -> & Hl & _)|(hd & name & ch & -> & Hhd & Hch)].
  - left. now exists h.
  - right. destruct Hhd as [[-> ->]|(h & -> & -> & Hl & _)].
    + left. exists ch. split; [reflexivity|]. now apply Hsub.
    + right. exists h, ch. split; [reflexivity|]. split; [assumption|].
      now apply Hsub.
Qed.

Lemma flat_map_eq_on {A B} (f g : A -> list B) (l : list A) :
  (forall x, x ∈ l -> f x = g x) -> flat_map f l = flat_map g l.
Proof.
  induction l as [|a l IH]; intros H; [reflexivity|].
  cbn [flat_map]. rewrite (H a) by apply list_elem_of_here.
  rewrite IH; [reflexivity|]. intros x Hx. apply H.
  now apply list_elem_of_further.
Qed.

(** Under the sections of one pass over plain children lie the children
    themselves. *)
Lemma grouped_unsection source level (cs : list node) :
  Forall plain cs ->
  flat_map unsection (grouped source level NewSection cs) = cs.
Proof.
  intros Hcs. rewrite <- (grouped_unwrap source level cs NewSection) at 2.
  apply flat_map_eq_on. intros x Hx.
  destruct (grouped_cases _ _ _ _ Hcs Hx)
    as [(h & -> & _)|[(ch & -> & Hch)|(h & ch & -> & _ & Hch)]];
    [reflexivity| |]; rewrite unsection_section; now apply plain_unsection.
Qed.

(** Taking every section of the tree away gives the children back. *)
Lemma compileSection_gas_unsection (gas : nat) source :
  forall level cs,
    Forall plain cs ->
    flat_map unsection (compileSection_gas gas source level cs) = cs.
Proof.
  induction gas as [|gas IH]; intros level cs Hcs;
    rewrite compileSection_gas_grouped;
    destruct (level >=? 6); try now apply grouped_unsection.
  rewrite flat_map_concat_map, map_map, <- flat_map_concat_map.
  rewrite <- (grouped_unwrap source level cs NewSection) at 2.
  apply flat_map_eq_on. intros x Hx.
  destruct (grouped_cases _ _ _ _ Hcs Hx)
    as [(h & -> & _)|[(ch & -> & Hch)|(h & ch & -> & _ & Hch)]];
    cbn [recurse unwrap]; [reflexivity| |]; rewrite unsection_section.
  - now apply plain_unsection.
  - now apply IH.
Qed.

(** *** The whole tree *)

Lemma map_fmap {A B} (f : A -> B) (l : list A) : map f l = f <$> l.
Proof. reflexivity. Qed.

Lemma recurse_orphan compile (x : node) :
  isOrphan (recurse compile x) = isOrphan x.
Proof. now destruct x as [h|k cs|[h|] name cs]. Qed.

(** After [compileSection], whatever the children were, a section
    without a heading stands at the front of the child list or nowhere. *)
Lemma compileSection_orphan_first source level cs :
  orphan_first (compileSection source level cs).
Proof.
  intros i x Hi Hx. rewrite compileSection_grouped in Hi.
  destruct (level >=? 6).
  - now destruct (grouped_orphan _ _ _ _ _ _ Hi Hx).
  - rewrite map_fmap, list_lookup_fmap in Hi.
    destruct (grouped source level NewSection cs !! i) as [y|] eqn:Hy;
      [|discriminate].
    injection Hi as <-. rewrite recurse_orphan in Hx.
    now destruct (grouped_orphan _ _ _ _ _ _ Hy Hx).
Qed.

Lemma plain_heading (h : heading) : plain (HeadingNode h).
Proof. split; [reflexivity|exact I]. Qed.

Section Deep.

Variable P : node -> Prop.
Variable source : string.
Variable top : Z.

(** The levels that a call at level [top] goes through. *)
Let reached (level : Z) : Prop := top <= level /\ (level <= 6 \/ level = top).

Hypothesis P_plain : forall x, plain x -> P x.
Hypothesis P_orphan :
  forall ch, Forall plain ch -> P (SectionNode None EmptyString ch).
Hypothesis P_section :
  forall level h ch,
    reached level -> Level h = level -> Forall plain ch ->
    P (SectionNode (Some h) (sectionName source h)
         (if level >=? 6 then ch else compileSection source (level + 1) ch)).

Lemma plain_all (l : list node) : Forall plain l -> Forall (node_all P) l.
Proof.
  intros Hl. eapply Forall_impl; [exact Hl|].
  intros x. apply node_all_weaken. exact P_plain.
Qed.

(** The children of the parent after the pass at [level], given what
    holds of the children of a section with a heading once [compile] has
    been through them. *)
Lemma recursed_all (compile : list node -> list node) (level : Z)
    (cs : list node) :
  reached level ->
  Forall plain cs ->
  (forall h ch,
     Forall plain ch ->
     P (SectionNode (Some h) (sectionName source h) (compile ch)) ->
     Forall (node_all P) (compile ch)) ->
  (forall ch,
     compile ch =
       if level >=? 6 then ch else compileSection source (level + 1) ch) ->
  Forall (node_all P)
    (map (recurse compile) (grouped source level NewSection cs)).
Proof.
  intros Hr Hcs Hsub Hcompile. apply Forall_map, Forall_forall. intros x Hx.
  destruct (grouped_cases _ _ _ _ Hcs Hx)
    as [(h & -> & _)|[(ch & -> & Hch)|(h & ch & -> & Hl & Hch)]];
    cbn [recurse]; apply node_all_unfold; cbn [children].
  - split; [apply P_plain, plain_heading|constructor].
  - split; [now apply P_orphan|now apply plain_all].
  - assert (HP : P (SectionNode (Some h) (sectionName source h) (compile ch))).
    { rewrite Hcompile. now apply P_section. }
    split; [exact HP|exact (Hsub h ch Hch HP)].
Qed.

Lemma map_recurse_id (l : list node) : map (recurse (fun ch => ch)) l = l.
Proof.
  induction l as [|[h|k cs|[h|] name cs] l IH]; cbn [map recurse];
    now rewrite ?IH.
Qed.

Lemma compileSection_all_from (n : nat) : forall level cs,
  Z.to_nat (6 - level) = n ->
  reached level ->
  Forall plain cs ->
  Forall (node_all P) (compileSection source level cs).
Proof.
  induction n as [|n IH]; intros level cs Hn Hr Hcs;
    rewrite compileSection_grouped;
    destruct (Z.geb_spec level 6) as [Hge|Hlt]; try lia.
  - rewrite <- map_recurse_id.
    apply recursed_all; try assumption.
    + intros h ch Hch _. now apply plain_all.
    + intros ch. destruct (Z.geb_spec level 6); [reflexivity|lia].
  - apply recursed_all; try assumption.
    + intros h ch Hch _. apply IH; [lia| |assumption].
      destruct Hr as [Hr1 Hr2]. split; lia.
    + intros ch. destruct (Z.geb_spec level 6); [lia|reflexivity].
Qed.

(** Every node of the tree that [compileSection] builds from plain
    children satisfies [P]. *)
Lemma compileSection_all (cs : list node) :
  Forall plain cs ->
  Forall (node_all P) (compileSection source top cs).
Proof.
  intros Hcs. apply (compileSection_all_from (Z.to_nat (6 - top)));
    [reflexivity| |assumption].
  split; [lia|]. now right.
Qed.

End Deep.

(** *** The properties of the segmenter *)

Lemma orphan_first_rule (l : list node) : orphan_first l -> orphan_rule l.
Proof.
  intros Hl. repeat split.
  - intros i j x y Hi Hj Hx Hy.
    rewrite (Hl i x Hi Hx). now rewrite (Hl j y Hj Hy).
  - exact Hl.
  - intros i j x h name ch Hi Hx Hj.
    rewrite (Hl i x Hi Hx). rewrite (Hl i x Hi Hx) in Hi.
    destruct j as [|j]; [|lia].
    rewrite Hi in Hj. injection Hj as ->. discriminate.
Qed.

(** On a node that is not a document, and on a plain one, [Transform]
    changes nothing that a property of plain trees could miss. *)
Lemma Transform_all (P : node -> Prop) source (doc : node) :
  (forall x, plain x -> P x) ->
  (forall kind cs, Forall plain cs ->
     P (OtherNode kind (compileSection source 1 cs))) ->
  (forall cs, Forall plain cs ->
     Forall (node_all P) (compileSection source 1 cs)) ->
  plain doc -> node_all P (Transform source doc).
Proof.
  intros Hplain Hdoc Hcs Hp.
  destruct doc as [h|kind cs|hd name cs]; cbn [Transform].
  - revert Hp. now apply node_all_weaken.
  - apply plain_children in Hp. cbn [children] in Hp.
    apply node_all_unfold. cbn [children].
    split; [now apply Hdoc|now apply Hcs].
  - revert Hp. now apply node_all_weaken.
Qed.

Lemma sample_doc_plain : plain sample_doc.
Proof. unfold sample_doc, plain. cbn. repeat split. Qed.

(** C6. In the tree that the segmenter makes of a parsed document, every
    parent has at most one section without a heading among its children;
    that section is the first child and stands before every section that
    has a heading. *)
Theorem orphan_section_first (source : string) (doc : node) :
  plain doc ->
  node_all (fun p => orphan_rule (children p)) (Transform source doc).
Proof.
  assert (Hplain : forall x, plain x -> orphan_rule (children x)).
  { intros x Hx.
    now apply orphan_first_rule, plain_orphan_first, plain_children. }
  apply Transform_all.
  - exact Hplain.
  - intros kind cs _. cbn [children].
    apply orphan_first_rule, compileSection_orphan_first.
  - intros cs Hcs. apply compileSection_all; try assumption.
    + intros ch Hch. cbn [children].
      now apply orphan_first_rule, plain_orphan_first.
    + intros level h ch _ _ Hch. cbn [children]. apply orphan_first_rule.
      destruct (level >=? 6).
      * now apply plain_orphan_first.
      * apply compileSection_orphan_first.
Qed.

Lemma orphan_section_first_witness :
  plain sample_doc /\
  node_all (fun p => orphan_rule (children p)) (Transform "A" sample_doc).
Proof.
  split; [exact sample_doc_plain|].
  exact (orphan_section_first "A" sample_doc sample_doc_plain).
Defined.

(** The name of a section is worked out as [resolvedName] says. *)
Lemma sectionName_resolved (source : string) (h : heading) :
  sectionName source h = resolvedName source h.
Proof.
  unfold sectionName, resolvedName.
  destruct (AttributeString h "section") as [[b|s|n|b|]|];
    cbn [asBytes]; try reflexivity;
    destruct (AttributeString h "id") as [[b'|s'|n'|b'|]|]; reflexivity.
Qed.

(** C5, as the code has it. Every section of the tree that has a heading
    is named after the first of these that holds a byte string: the
    [section] attribute of the heading, its [id] attribute; and after the
    text of the heading when neither does. A section without a heading
    has the empty name. So a heading with both attributes as byte strings
    gives the value of [section], and one without attributes its text. *)
Theorem section_names_resolved (source : string) (doc : node) :
  (plain doc -> node_all (named source) (Transform source doc)) /\
  (forall h id,
     AttributeString h "section" = Some (AttrBytes id) ->
     sectionName source h = id) /\
  (forall h id,
     asBytes (AttributeString h "section") = None ->
     AttributeString h "id" = Some (AttrBytes id) ->
     sectionName source h = id) /\
  (forall h,
     asBytes (AttributeString h "section") = None ->
     asBytes (AttributeString h "id") = None ->
     sectionName source h = Text source h).
Proof.
  split; [|split; [|split]].
  - apply Transform_all.
    + intros [h|kind cs|hd name cs] Hx; try exact I.
      apply plain_not_section in Hx. discriminate.
    + intros kind cs _. exact I.
    + intros cs Hcs. apply compileSection_all; try assumption.
      * intros [h|kind cs'|hd name cs'] Hx; try exact I.
        apply plain_not_section in Hx. discriminate.
      * intros ch _. reflexivity.
      * intros level h ch _ _ _. apply sectionName_resolved.
  - intros h id Hs. unfold sectionName. now rewrite Hs.
  - intros h id Hs Hi. rewrite sectionName_resolved. unfold resolvedName.
    now rewrite Hs, Hi.
  - intros h Hs Hi. rewrite sectionName_resolved. unfold resolvedName.
    now rewrite Hs, Hi.
Qed.

Lemma section_names_resolved_witness :
  plain sample_doc /\
  node_all (named "A") (Transform "A" sample_doc) /\
  sectionName "A" (headingOf 1 [] 1) = "A".
Proof.
  split; [exact sample_doc_plain|].
  destruct (section_names_resolved "A" sample_doc) as (Hall & _ & _ & Htext).
  split; [exact (Hall sample_doc_plain)|].
  exact (Htext (headingOf 1 [] 1) eq_refl eq_refl).
Defined.

(** C5, as the claim has it, fails: a [section] attribute that is there
    but holds a number does not name the section; the [id] does. *)
Lemma section_attribute_passed_over :
  AttributeString numbered "section" = Some (AttrNumber 1) /\
  AttributeString numbered "id" = Some (AttrBytes "intro") /\
  sectionName EmptyString numbered = "intro" /\
  ~ (forall source h v,
       AttributeString h "section" = Some v ->
       AttrBytes (sectionName source h) = v).
Proof.
  repeat split.
  intros H. specialize (H EmptyString numbered (AttrNumber 1) eq_refl).
  discriminate.
Qed.

(** A heading of the level of the pass stays in the child list. *)
Lemma grouped_keeps source level (cs : list node) : forall s c h,
  c ∈ cs -> opens level c = Some h -> c ∈ grouped source level s cs.
Proof.
  induction cs as [|c' cs IH]; intros s c h Hc Ho; [inversion Hc|].
  cbn [grouped]. apply elem_of_cons in Hc as [<-|Hc].
  - rewrite Ho. apply elem_of_app. right. apply list_elem_of_here.
  - destruct (opens level c') as [h'|].
    + apply elem_of_app. right. apply list_elem_of_further.
      now apply IH with (h := h).
    + now apply IH with (h := h).
Qed.

Lemma recurse_heading compile (x : node) (h : heading) :
  recurse compile x = HeadingNode h -> x = HeadingNode h.
Proof. destruct x as [h'|k cs|[h'|] name cs]; cbn [recurse]; congruence. Qed.

Lemma recurse_section compile (x : node) :
  isSection (recurse compile x) = isSection x.
Proof. now destruct x as [h'|k cs|[h'|] name cs]. Qed.

Lemma shell_recurse compile (x : node) : shell (recurse compile x) = shell x.
Proof. now destruct x as [h'|k cs|[h'|] name cs]. Qed.

(** C3, as the code has it. After [compileSection] at a level, the child
    list of the parent holds sections and the headings of that level,
    nothing else: each such heading stays a child of the parent, where it
    is at once followed by the section that refers to it; everything
    else has moved into the sections, and taking the sections away again
    gives the children back in their order. The loop at that level
    settles the child list of the parent: the calls at the next level
    change nothing in it but what its sections hold. *)
Theorem compileSection_child_list (source : string) (level : Z)
    (cs : list node) :
  Forall plain cs ->
  let out := compileSection source level cs in
  Forall (fun x => isSection x = true \/
                   exists h, x = HeadingNode h /\ Level h = level /\ x ∈ cs)
    out /\
  (forall h,
     HeadingNode h ∈ cs -> Level h = level -> HeadingNode h ∈ out) /\
  (forall i h, out !! i = Some (HeadingNode h) ->
     exists name ch, out !! S i = Some (SectionNode (Some h) name ch)) /\
  flat_map unsection out = cs /\
  map shell out = map shell (parent (run source level cs)).
Proof.
  intros Hcs out. subst out.
  split; [|split; [|split; [|split]]].
  - rewrite compileSection_grouped.
    assert (Hg : Forall (fun x => isSection x = true \/
                   exists h, x = HeadingNode h /\ Level h = level /\ x ∈ cs)
                   (grouped source level NewSection cs)).
    { apply Forall_forall. intros x Hx.
      destruct (grouped_elem _ _ _ _ _ Hx)
        as [(h & -> & Hl & Hin)|(hd & name & ch & -> & _)].
      - right. now exists h.
      - now left. }
    destruct (level >=? 6); [exact Hg|].
    apply Forall_map. eapply Forall_impl; [exact Hg|].
    intros x [Hx|(h & -> & Hl & Hin)].
    + left. now rewrite recurse_section.
    + right. now exists h.
  - intros h Hin Hl.
    assert (Ho : opens level (HeadingNode h) = Some h).
    { cbn [opens]. now rewrite (proj2 (Z.eqb_eq _ _) Hl). }
    pose proof (grouped_keeps source level cs NewSection _ h Hin Ho) as Hg.
    rewrite compileSection_grouped. destruct (level >=? 6); [exact Hg|].
    rewrite map_fmap. apply list_elem_of_fmap.
    exists (HeadingNode h). now split.
  - intros i h. rewrite compileSection_grouped.
    destruct (level >=? 6); [apply grouped_heading_next|].
    rewrite map_fmap, !list_lookup_fmap. intros Hi.
    destruct (grouped source level NewSection cs !! i) as [x|] eqn:Hx;
      [|discriminate].
    injection Hi as Hi. apply recurse_heading in Hi. subst x.
    destruct (grouped_heading_next _ _ _ _ _ _ Hx) as (name & ch & ->).
    cbn [fmap option_fmap option_map recurse]. eauto.
  - now apply compileSection_gas_unsection.
  - rewrite compileSection_grouped, (proj1 (run_grouped source level cs)).
    destruct (level >=? 6); [reflexivity|].
    rewrite map_map. apply map_ext. intros x. apply shell_recurse.
Qed.

Lemma compileSection_child_list_witness :
  Forall plain (children sample_doc) /\
  HeadingNode (headingOf 1 [] 1)
    ∈ compileSection "A" 1 (children sample_doc) /\
  flat_map unsection (compileSection "A" 1 (children sample_doc))
    = children sample_doc.
Proof.
  assert (Hp : Forall plain (children sample_doc))
    by exact (plain_children _ sample_doc_plain).
  split; [exact Hp|].
  destruct (compileSection_child_list "A" 1 (children sample_doc) Hp)
    as (_ & Hkeep & _ & Hflat & _).
  split; [|exact Hflat].
  apply Hkeep; [|reflexivity].
  cbn [children sample_doc]. apply list_elem_of_further, list_elem_of_here.
Defined.

(** C3, as the claim has it, fails: the heading is still a child of the
    parent after the pass, before the section it opened. *)
Lemma heading_stays_sibling :
  compileSection "A" 1 [HeadingNode (headingOf 1 [] 1); para "body"] =
    [HeadingNode (headingOf 1 [] 1);
     SectionNode (Some (headingOf 1 [] 1)) "A"
       [SectionNode None EmptyString [para "body"]]] /\
  ~ (forall source level cs,
       Forall plain cs ->
       Forall (fun x => isSection x = true) (compileSection source level cs)).
Proof.
  split; [reflexivity|].
  intros H.
  specialize (H "A" 1 [HeadingNode (headingOf 1 [] 1); para "body"]).
  assert (Hp : Forall plain [HeadingNode (headingOf 1 [] 1); para "body"]).
  { repeat constructor. }
  apply H in Hp. apply Forall_inv in Hp. discriminate.
Qed.

Lemma deep_doc_plain : plain deep_doc.
Proof. unfold deep_doc, plain. cbn. repeat split. Qed.

(** At level 6 the children of the section stay as they were, headings
    of level 7 among them; from level 5 the section of level 6 is made,
    and nothing below it. *)
Example level_6_flat :
  compileSection "A" 6
    [HeadingNode (headingOf 6 [] 1); HeadingNode (headingOf 7 [] 1);
     para "text"]
  = [HeadingNode (headingOf 6 [] 1);
     SectionNode (Some (headingOf 6 [] 1)) "A"
       [HeadingNode (headingOf 7 [] 1); para "text"]] /\
  compileSection "A" 5
    [HeadingNode (headingOf 5 [] 1); HeadingNode (headingOf 6 [] 1);
     HeadingNode (headingOf 7 [] 1); para "text"]
  = [HeadingNode (headingOf 5 [] 1);
     SectionNode (Some (headingOf 5 [] 1)) "A"
       [HeadingNode (headingOf 6 [] 1);
        SectionNode (Some (headingOf 6 [] 1)) "A"
          [HeadingNode (headingOf 7 [] 1); para "text"]]].
Proof. split; reflexivity. Qed.

(** The loop of [compileSection] written out: with the gas it is
    given, the call at a level below 6 goes on, at the next level, at
    each position of [subs]. *)
Lemma compileSection_unfold (source : string) (level : Z) (cs : list node) :
  compileSection source level cs =
    let st := run source level cs in
    if level >=? 6 then parent st
    else
      fold_left (recurseAt (compileSection source (level + 1)))
        (subs st) (parent st).
Proof.
  unfold compileSection.
  destruct (Z.geb_spec level 6) as [Hge|Hlt].
  - destruct (Z.to_nat (6 - level)); cbn [compileSection_gas]; cbn zeta;
      destruct (Z.geb_spec level 6); try lia; reflexivity.
  - rewrite (gas_step level Hlt). cbn [compileSection_gas]. cbn zeta.
    destruct (Z.geb_spec level 6); [lia|reflexivity].
Qed.

(** What the loop leaves, by the runs between the headings of the
    level. *)
Lemma grouped_runs source level (cs : list node) : forall s,
  grouped source level s cs =
    close {| Heading := Heading s; Name := Name s;
             Children := Children s ++ fst (runs level cs) |}
    ++ flat_map
         (fun hr : heading * list node =>
            [HeadingNode (fst hr);
             SectionNode (Some (fst hr)) (sectionName source (fst hr))
               (snd hr)])
         (snd (runs level cs)).
Proof.
  induction cs as [|c cs IH]; intros s.
  - cbn [grouped runs fst snd flat_map]. rewrite !app_nil_r.
    now destruct s.
  - cbn [grouped runs]. destruct (runs level cs) as [lead secs] eqn:Hr.
    cbn [fst snd] in IH.
    destruct (opens level c) as [h|] eqn:Ho.
    + apply opens_heading in Ho as [-> _]. rewrite IH.
      cbn [fst snd flat_map fresh Heading Name Children app].
      rewrite app_nil_r. destruct s as [hd name ch].
      cbn [Heading Name Children].
      reflexivity.
    + rewrite IH. cbn [fst snd extend Heading Name Children].
      now rewrite <- app_assoc.
Qed.

Lemma map_recurse_runs source (compile : list node -> list node)
    (secs : list (heading * list node)) :
  map (recurse compile)
    (flat_map
       (fun hr : heading * list node =>
          [HeadingNode (fst hr);
           SectionNode (Some (fst hr)) (sectionName source (fst hr))
             (snd hr)])
       secs)
  = flat_map
      (fun hr : heading * list node =>
         [HeadingNode (fst hr);
          SectionNode (Some (fst hr)) (sectionName source (fst hr))
            (compile (snd hr))])
      secs.
Proof.
  induction secs as [|[h r] secs IH]; [reflexivity|].
  cbn [flat_map app map recurse fst snd]. now rewrite IH.
Qed.

(** One call of [compileSection], by the runs. *)
Lemma compileSection_segmented (source : string) (level : Z)
    (cs : list node) :
  compileSection source level cs =
    segmented source level
      (fun r => if level >=? 6 then r else compileSection source (level + 1) r)
      cs.
Proof.
  rewrite compileSection_grouped, grouped_runs. unfold segmented.
  destruct (runs level cs) as [lead secs]. cbn [fst snd].
  assert (Hlead :
            close {| Heading := Heading NewSection; Name := Name NewSection;
                     Children := Children NewSection ++ lead |}
            = match lead with
              | [] => []
              | _ :: _ => [SectionNode None EmptyString lead]
              end).
  { now destruct lead. }
  rewrite Hlead. destruct (level >=? 6); [reflexivity|].
  rewrite map_app, map_recurse_runs. f_equal. now destruct lead.
Qed.

(** C7. After [compileSection] at a level, each heading of the level is
    followed by its section, and the children of that section are what
    follows the heading up to the next heading of the level: as
    [compileSection] at the next level leaves them when the level is
    below 6, and as they were when it is 6 or more, headings of deeper
    levels among them. In the tree made of a parsed document every
    section with a heading has one of level 1 to 6 and holds what the
    pass at the next level leaves of a run of parsed blocks, and a
    section whose heading is of level 6 holds the blocks as they were
    parsed, with no section among them. *)
Theorem compileSection_levels (source : string) (doc : node) :
  (forall level cs,
     level < 6 ->
     compileSection source level cs =
       segmented source level (compileSection source (level + 1)) cs) /\
  (forall level cs,
     6 <= level ->
     compileSection source level cs =
       segmented source level (fun r => r) cs) /\
  (plain doc ->
   node_all (fun n => levelled n /\ resegmented source n)
     (Transform source doc)).
Proof.
  split; [|split].
  { intros level cs Hl. rewrite compileSection_segmented.
    destruct (Z.geb_spec level 6); [lia|reflexivity]. }
  { intros level cs Hl. rewrite compileSection_segmented.
    destruct (Z.geb_spec level 6); [reflexivity|lia]. }
  assert (Hplain : forall x, plain x -> levelled x /\ resegmented source x).
  { intros [h|kind cs|hd name cs] Hx; try (split; exact I).
    apply plain_not_section in Hx. discriminate. }
  apply Transform_all.
  - exact Hplain.
  - intros kind cs _. split; exact I.
  - intros cs Hcs. apply compileSection_all; try assumption.
    + intros ch _. split; exact I.
    + intros level h ch [Hr1 Hr2] Hl Hch. split.
      * cbn [levelled]. split; [lia|]. intros H6.
        destruct (Z.geb_spec level 6); [assumption|lia].
      * cbn [resegmented]. exists ch. split; [exact Hch|]. now rewrite Hl.
Qed.

Lemma compileSection_levels_witness :
  plain deep_doc /\
  node_all (fun n => levelled n /\ resegmented "A" n)
    (Transform "A" deep_doc).
Proof.
  split; [exact deep_doc_plain|].
  exact (proj2 (proj2 (compileSection_levels "A" deep_doc)) deep_doc_plain).
Defined.

End SegmentsFacts.

(** ** Properties of the node over the section tree *)

Module MarkdownNodeFacts.

Import Go Markdown Segments Pipe MarkdownNode.

(** [UnorderedChild] stops at the first section of the name. *)
Lemma walk_first (name : string) (cs : list node) :
  walkSections
    (fun (section : option node) child =>
       if String.eqb (sectionNameOf child) name then (Some child, true)
       else (section, false))
    cs None
  = head (List.filter
            (fun c => isSection c && String.eqb (sectionNameOf c) name) cs).
Proof.
  induction cs as [|[h|k ch|hd nm ch] cs IH]; cbn [walkSections List.filter];
    try exact IH; [reflexivity|].
  cbn [isSection sectionNameOf andb].
  destruct (String.eqb nm name); [reflexivity|exact IH].
Qed.

(** [UnorderedChildren] goes through every section, and a later section
    of a name takes the place of an earlier one. *)
Lemma walk_last (n : Node) (name : string) (cs : list node) :
  forall m : gmap string Node,
  walkSections
    (fun (sections : gmap string Node) child =>
       (<[sectionNameOf child := derive n child]> sections, false))
    cs m !! name
  = match
      last (List.filter
              (fun c => isSection c && String.eqb (sectionNameOf c) name) cs)
    with
    | Some c => Some (derive n c)
    | None => m !! name
    end.
Proof.
  induction cs as [|[h|k ch|hd nm ch] cs IH]; intros m;
    cbn [walkSections List.filter]; try exact (IH m); [reflexivity|].
  cbn [isSection sectionNameOf andb]. rewrite IH.
  destruct (String.eqb_spec nm name) as [->|Hne].
  - rewrite last_cons.
    destruct (last (List.filter _ cs)); [reflexivity|].
    now rewrite lookup_insert_eq.
  - destruct (last (List.filter _ cs)); [reflexivity|].
    now rewrite lookup_insert_ne.
Qed.

(** C10. Among the child sections of a node that share a name,
    [UnorderedChild] gives the first in document order and the map of
    [UnorderedChildren] holds the last; for the document [twins], with
    two sections called "A", the two are different sections. *)
Theorem unordered_first_and_last :
  (forall (n : Node) (name : string),
     UnorderedChild n name = derive n <$> head (sectionsNamed n name) /\
     UnorderedChildren n !! name = derive n <$> last (sectionsNamed n name)) /\
  sectionsNamed twins "A" = [first_twin; second_twin] /\
  UnorderedChild twins "A" = Some (derive twins first_twin) /\
  UnorderedChildren twins !! "A" = Some (derive twins second_twin) /\
  UnorderedChildren twins !! "A" <> UnorderedChild twins "A".
Proof.
  assert (Hgen : forall (n : Node) (name : string),
     UnorderedChild n name = derive n <$> head (sectionsNamed n name) /\
     UnorderedChildren n !! name = derive n <$> last (sectionsNamed n name)).
  { intros n name. split.
    - unfold UnorderedChild, WalkChildSections, sectionsNamed.
      rewrite walk_first. now destruct (head _).
    - unfold UnorderedChildren, WalkChildSections, sectionsNamed.
      rewrite walk_last. now destruct (last _). }
  assert (Hs : sectionsNamed twins "A" = [first_twin; second_twin])
    by reflexivity.
  destruct (Hgen twins "A") as [H1 H2]. rewrite Hs in H1, H2.
  split; [exact Hgen|]. split; [exact Hs|].
  split; [exact H1|]. split; [exact H2|].
  rewrite H1, H2. cbn. intros [= H]. 
Qed.

(** *** The reader of [FragmentReader] *)

Section Stream.

Variable chunks : list string.
Variable msg : string.






End Stream.



End MarkdownNodeFacts.

(** ** Properties of the node over [io/fs] *)

Module FilesysFacts.

Import Go Filesys.

(** Storing into a slice at or beyond its length panics, and the loop of
    [OrderedChildren] stores at the first entry that [Sub] opens. *)
Lemma rangeSubs_panics (fsys : FSys) (subs : list DirEntry) :
  forall (i : nat) (nodes : list (option FS)),
    length nodes <= i ->
    (exists entry, entry ∈ subs /\ is_Some (methodSub fsys (Name entry))) ->
    rangeSubs fsys subs i nodes = Panics "index out of range".
Proof.
  induction subs as [|e subs IH]; intros i nodes Hlen (entry & Hin & Hsub).
  - inversion Hin.
  - cbn [rangeSubs]. destruct (methodSub fsys (Name e)) as [sub|] eqn:He.
    + unfold store. destruct (decide (i < length nodes)); [lia|reflexivity].
    + apply IH; [lia|]. exists entry. split; [|assumption].
      apply elem_of_cons in Hin as [->|Hin]; [|assumption].
      rewrite He in Hsub. now destruct Hsub.
Qed.

(** When [Sub] opens no entry, the loop stores nothing. *)
Lemma rangeSubs_returns (fsys : FSys) (subs : list DirEntry) :
  forall (i : nat) (nodes : list (option FS)),
    Forall (fun entry => methodSub fsys (Name entry) = None) subs ->
    rangeSubs fsys subs i nodes = Returns nodes.
Proof.
  induction subs as [|e subs IH]; intros i nodes Hall; [reflexivity|].
  cbn [rangeSubs]. rewrite (Forall_inv Hall).
  apply IH. exact (Forall_inv_tail Hall).
Qed.

(** [OrderedChildren] panics on every readable directory of a file
    system with a [Sub] method that opens one of the entries. *)
Lemma OrderedChildren_panics (f : FS) (fsys : FSys) :
  FS_ f = Some fsys ->
  implSubFS fsys = true ->
  dirErr fsys = false ->
  (exists entry,
     entry ∈ dirList fsys /\ is_Some (methodSub fsys (Name entry))) ->
  OrderedChildren f = Panics "index out of range".
Proof.
  intros Hf Hs He Hex. unfold OrderedChildren. rewrite Hf, Hs, He.
  cbn [negb]. apply rangeSubs_panics; [cbn; lia|assumption].
Qed.

(** [OrderedChild] never indexes outside the entries. *)
Lemma OrderedChild_returns (f : FS) (i : Z) :
  Go.is_int i -> exists r, OrderedChild f i = Returns r.
Proof.
  intros Hi. unfold OrderedChild.
  destruct (FS_ f) as [fsys|]; [|eauto].
  destruct (dirErr fsys); [eauto|].
  set (len := Z.of_nat (length (dirList fsys))).
  assert (Hidx : (Drill.Index i len < 0 \/ 0 <= Drill.Index i len < len)%Z).
  { unfold Drill.Index. destruct (Z.leb_spec len 0); [lia|].
    destruct ((if (i <? 0)%Z then wrap (i + len) else i) <? 0)%Z eqn:H1;
      cbn [orb]; [lia|].
    destruct ((if (i <? 0)%Z then wrap (i + len) else i) >=? len)%Z eqn:H2;
      [lia|].
    apply Z.ltb_ge in H1. rewrite Z.geb_leb in H2. apply Z.leb_gt in H2.
    lia. }
  destruct (Z.ltb_spec (Drill.Index i len) 0); [eauto|].
  destruct (dirList fsys !! Z.to_nat (Drill.Index i len)) as [entry|] eqn:He.
  - destruct (fsSub fsys (Name entry)); eauto.
  - apply lookup_ge_None in He. subst len. lia.
Qed.

(** C2. [OrderedChildren] panics on a readable directory with one entry:
    the slice it stores the child in has no element. *)
Theorem OrderedChildren_panics_one_entry :
  dirErr one_entry_dir = false /\
  dirList one_entry_dir = [{| Name := "a"; IsDir := true |}] /\
  OrderedChildren {| FS_ := Some one_entry_dir; handlers := [] |}
    = Panics "index out of range".
Proof. repeat split. Qed.

Local Open Scope Z_scope.

(** Of a file system without a [Sub] method, [fs.Sub] opens every valid
    path. *)
Lemma fsSub_without_method (fsys : FSys) (name : string) :
  implSubFS fsys = false -> ValidPath name = true ->
  is_Some (fsSub fsys name).
Proof.
  intros Hs Hv. unfold fsSub. rewrite Hv, Hs. cbn [negb].
  destruct (String.eqb name "."); eauto.
Qed.

(** [utf8.ValidString] on the cases that the tables tell apart: a rune
    of two bytes; the overlong forms [C0 80] and [E0 80 80]; the
    surrogate [ED A0 80]; the last rune [F4 8F BF BF] and the first
    beyond it; a rune cut short; a stray continuation byte. *)
Example ValidString_cases :
  let bytes := fold_right (fun b => String (Ascii.ascii_of_N b)) EmptyString in
  ValidString (bytes [97; 195; 169]%N) = true /\
  ValidString (bytes [192; 128]%N) = false /\
  ValidString (bytes [224; 128; 128]%N) = false /\
  ValidString (bytes [224; 160; 128]%N) = true /\
  ValidString (bytes [237; 160; 128]%N) = false /\
  ValidString (bytes [237; 159; 191]%N) = true /\
  ValidString (bytes [244; 143; 191; 191]%N) = true /\
  ValidString (bytes [244; 144; 128; 128]%N) = false /\
  ValidString (bytes [240; 144; 128; 128]%N) = true /\
  ValidString (bytes [240; 143; 128; 128]%N) = false /\
  ValidString (bytes [195]%N) = false /\
  ValidString (bytes [128]%N) = false /\
  ValidString stray_name = false /\
  ValidPath stray_name = false /\
  ValidPath "a" = true.
Proof. cbv zeta. repeat split. Qed.

(** [fs.Sub] refuses an invalid path, whatever the file system. *)
Lemma fsSub_invalid (fsys : FSys) (name : string) :
  ValidPath name = false -> fsSub fsys name = None.
Proof. intros Hv. unfold fsSub. now rewrite Hv. Qed.

(** The index 0 of a directory that is not empty. *)
Lemma Index_first (entry : DirEntry) (rest : list DirEntry) :
  Drill.Index 0 (Z.of_nat (length (entry :: rest))) = 0.
Proof.
  unfold Drill.Index. cbn [length].
  destruct (Z.leb_spec (Z.of_nat (S (length rest))) 0); [lia|].
  change (0 <? 0) with false. cbv iota. cbn [orb].
  destruct (Z.geb_spec 0 (Z.of_nat (S (length rest)))); [lia|reflexivity].
Qed.

(** C9. When the wrapped file system has no [Sub] method,
    [OrderedChildren] returns the nil slice; yet when the directory is
    readable and not empty, [Len] is positive, and [OrderedChild 0] is a
    node exactly when the name of the first entry is a path that
    [fs.Sub] takes, which [fs.ValidPath] decides; for any other name,
    one that is no UTF-8 among them, it is nil. *)
Theorem OrderedChildren_needs_SubFS (f : FS) :
  hasSubFS f = false ->
  OrderedChildren f = Returns [] /\
  (forall fsys entry rest,
     FS_ f = Some fsys ->
     dirErr fsys = false ->
     dirList fsys = entry :: rest ->
     0 < Len f /\
     (ValidPath (Name entry) = true ->
      exists sub,
        fsSub fsys (Name entry) = Some sub /\
        OrderedChild f 0
        = Returns (Some {| FS_ := Some sub; handlers := handlers f |})) /\
     (ValidPath (Name entry) = false -> OrderedChild f 0 = Returns None)).
Proof.
  unfold hasSubFS. intros Hs. split.
  - unfold OrderedChildren. destruct (FS_ f) as [fsys|]; [|reflexivity].
    now rewrite Hs.
  - intros fsys entry rest Hf He Hl. rewrite Hf in Hs.
    assert (Hchild :
              OrderedChild f 0 =
                match fsSub fsys (Name entry) with
                | None => Returns None
                | Some sub =>
                    Returns
                      (Some {| FS_ := Some sub; handlers := handlers f |})
                end).
    { unfold OrderedChild. rewrite Hf, He, Hl, Index_first.
      change (0 <? 0) with false. cbv iota. reflexivity. }
    split; [|split].
    + unfold Len. rewrite Hf, Hl. cbn [length]. lia.
    + intros Hv.
      destruct (fsSub_without_method fsys (Name entry) Hs Hv) as [sub Hsub].
      exists sub. split; [exact Hsub|]. now rewrite Hchild, Hsub.
    + intros Hv. now rewrite Hchild, (fsSub_invalid fsys (Name entry) Hv).
Qed.

Lemma OrderedChildren_needs_SubFS_witness :
  OrderedChildren {| FS_ := Some plain_dir; handlers := [] |} = Returns [] /\
  0 < Len {| FS_ := Some plain_dir; handlers := [] |} /\
  exists child,
    OrderedChild {| FS_ := Some plain_dir; handlers := [] |} 0
      = Returns (Some child).
Proof.
  destruct (OrderedChildren_needs_SubFS
              {| FS_ := Some plain_dir; handlers := [] |} eq_refl)
    as [Hnil Hchild].
  split; [exact Hnil|].
  destruct (Hchild plain_dir {| Name := "a"; IsDir := true |} []
              eq_refl eq_refl eq_refl) as (Hlen & Hvalid & _).
  split; [exact Hlen|].
  destruct (Hvalid eq_refl) as (sub & _ & Hsub). eauto.
Defined.

(** A readable directory with one entry, behind a file system without a
    [Sub] method, of which [OrderedChild 0] is nil all the same: the
    name of the entry is the byte [0xFF], which is no UTF-8, so [fs.Sub]
    refuses it. So not every readable directory that is not empty has a
    node at index 0. *)
Lemma OrderedChild_nil_at_stray_name :
  (hasSubFS {| FS_ := Some stray_dir; handlers := [] |} = false /\
   dirErr stray_dir = false /\
   OrderedChildren {| FS_ := Some stray_dir; handlers := [] |} = Returns [] /\
   Len {| FS_ := Some stray_dir; handlers := [] |} = 1 /\
   OrderedChild {| FS_ := Some stray_dir; handlers := [] |} 0
   = Returns None) /\
  ~ (forall f fsys entry rest,
       hasSubFS f = false ->
       FS_ f = Some fsys ->
       dirErr fsys = false ->
       dirList fsys = entry :: rest ->
       OrderedChildren f = Returns [] /\
       0 < Len f /\
       exists child, OrderedChild f 0 = Returns (Some child)).
Proof.
  split; [repeat split|].
  intros H.
  destruct (H {| FS_ := Some stray_dir; handlers := [] |} stray_dir
              {| Name := stray_name; IsDir := true |} []
              eq_refl eq_refl eq_refl eq_refl)
    as (_ & _ & child & Hchild).
  discriminate.
Qed.

End FilesysFacts.

(** ** Properties of descent and query over the section tree *)

Module MarkdownQueriesFacts.

Import Go Markdown Segments Pipe MarkdownNode Traversal MarkdownQueries.

Local Open Scope Z_scope.

(** *** The walks *)

Lemma walk_count (cs : list node) : forall count : Z,
  walkSections (fun count _ => (count + 1, false)) cs count
  = count + Z.of_nat (length (List.filter isSection cs)).
Proof.
  induction cs as [|[h|k ch|hd nm ch] cs IH]; intros count;
    cbn [walkSections List.filter isSection length]; rewrite ?IH; lia.
Qed.

Lemma walk_collect (n : Node) (cs : list node) : forall acc : list Node,
  walkSections (fun sections child => (sections ++ [derive n child], false))
    cs acc
  = acc ++ map (derive n) (List.filter isSection cs).
Proof.
  induction cs as [|[h|k ch|hd nm ch] cs IH]; intros acc;
    cbn [walkSections List.filter isSection map]; rewrite ?IH.
  - now rewrite app_nil_r.
  - reflexivity.
  - reflexivity.
  - now rewrite <- app_assoc.
Qed.

(** The walk of [OrderedChild] stops at the section number [i]. *)
Lemma walk_nth (i : Z) (cs : list node) : forall count : Z,
  count <= i ->
  snd (walkSections
         (fun (st : Z * option node) child =>
            let (count, section) := st in
            if count =? i then ((count, Some child), true)
            else ((count + 1, section), false))
         cs (count, None))
  = List.filter isSection cs !! Z.to_nat (i - count).
Proof.
  induction cs as [|[h|k ch|hd nm ch] cs IH]; intros count Hle;
    cbn [walkSections List.filter isSection]; try (now apply IH).
  - reflexivity.
  - destruct (Z.eqb_spec count i) as [->|Hne].
    + now rewrite Z.sub_diag.
    + rewrite IH by lia.
      replace (Z.to_nat (i - count)) with (S (Z.to_nat (i - (count + 1))))
        by lia.
      reflexivity.
Qed.

(** The walk of [Descend] stops at the first section of the name. *)
Lemma walk_descend (n : Node) (name : string) (cs : list node) :
  walkSections
    (fun (st : bool * Node) section =>
       if negb (String.eqb (sectionNameOf section) name) then (st, false)
       else ((true, derive (snd st) section), true))
    cs (false, n)
  = match head (List.filter
                  (fun c => isSection c && String.eqb (sectionNameOf c) name)
                  cs)
    with
    | Some c => (true, derive n c)
    | None => (false, n)
    end.
Proof.
  induction cs as [|[h|k ch|hd nm ch] cs IH];
    cbn [walkSections List.filter]; try exact IH; [reflexivity|].
  cbn [isSection sectionNameOf andb].
  destruct (String.eqb nm name); [reflexivity|exact IH].
Qed.

Lemma Len_childSections (n : Node) :
  Len n = Z.of_nat (length (childSections n)).
Proof. unfold Len, WalkChildSections. now rewrite walk_count. Qed.

Lemma OrderedChildren_childSections (n : Node) :
  OrderedChildren n = map (derive n) (childSections n).
Proof. unfold OrderedChildren, WalkChildSections. now rewrite walk_collect. Qed.

(** [Index] gives no result or a position below [len]. *)
Lemma Index_cases (i len : Z) :
  Drill.Index i len = -1 \/ 0 <= Drill.Index i len < len.
Proof.
  unfold Drill.Index. destruct (Z.leb_spec len 0); [now left|].
  destruct ((if i <? 0 then wrap (i + len) else i) <? 0) eqn:H1;
    cbn [orb]; [now left|].
  destruct ((if i <? 0 then wrap (i + len) else i) >=? len) eqn:H2;
    [now left|].
  right. apply Z.ltb_ge in H1. rewrite Z.geb_leb in H2.
  apply Z.leb_gt in H2. lia.
Qed.

Lemma Index_value (i len : Z) :
  is_int i -> is_int len ->
  Drill.Index i len =
    if (0 <=? i) && (i <? len) then i
    else if (i <? 0) && (0 <=? i + len) then i + len
    else -1.
Proof.
  unfold is_int, int_min, int_max. intros Hi Hlen.
  unfold Drill.Index. cbv zeta.
  destruct (Z.leb_spec len 0) as [Hle|Hpos].
  - now repeat cmp_cases.
  - destruct (Z.ltb_spec i 0) as [Hneg|Hnn].
    + assert (Hw : wrap (i + len) = i + len).
      { unfold wrap. rewrite Z.mod_small; lia. }
      rewrite Hw. now repeat cmp_cases.
    + now repeat cmp_cases.
Qed.

(** [OrderedChild] is the lookup of the normalized index in the list of
    [OrderedChildren]. *)
Lemma OrderedChild_lookup (n : Node) (i : Z) :
  OrderedChild n i =
    let k := Drill.Index i (Len n) in
    if k <? 0 then None else OrderedChildren n !! Z.to_nat k.
Proof.
  unfold OrderedChild. cbv zeta.
  destruct (Z.ltb_spec (Drill.Index i (Len n)) 0) as [Hneg|Hpos];
    [reflexivity|].
  unfold WalkChildSections. rewrite walk_nth by lia.
  rewrite Z.sub_0_r, OrderedChildren_childSections.
  unfold childSections. rewrite SegmentsFacts.map_fmap, list_lookup_fmap.
  now destruct (List.filter isSection (children (section n)) !! _).
Qed.

(** *** Ordered and unordered lookup *)

Lemma twins_Len : Len twins = 2.
Proof. reflexivity. Qed.

(** X1. The ordered methods of a node agree: [Len] is the length of
    [OrderedChildren]; [OrderedChild i] is the element [i] of that list
    for [0 <= i < Len], the element [i + Len] for [-Len <= i < 0], and
    nil for every other [i]. *)
Theorem OrderedChild_in_OrderedChildren (n : Node) (i : Z) :
  is_int i -> is_int (Len n) ->
  Len n = Z.of_nat (length (OrderedChildren n)) /\
  (0 <= i < Len n ->
   OrderedChild n i = OrderedChildren n !! Z.to_nat i /\
   is_Some (OrderedChild n i)) /\
  (- Len n <= i < 0 ->
   OrderedChild n i = OrderedChildren n !! Z.to_nat (i + Len n) /\
   is_Some (OrderedChild n i)) /\
  (Len n <= i \/ i < - Len n -> OrderedChild n i = None).
Proof.
  intros Hi Hlen.
  assert (HL : Len n = Z.of_nat (length (OrderedChildren n))).
  { rewrite OrderedChildren_childSections, length_map.
    apply Len_childSections. }
  assert (Hsome : forall k, 0 <= k < Len n ->
            is_Some (OrderedChildren n !! Z.to_nat k)).
  { intros k Hk. apply lookup_lt_is_Some. lia. }
  rewrite OrderedChild_lookup. cbv zeta.
  rewrite (Index_value i (Len n) Hi Hlen).
  split; [exact HL|]. split; [|split].
  - intros Hin.
    destruct (Z.leb_spec 0 i), (Z.ltb_spec i (Len n)); try lia.
    cbn [andb]. destruct (Z.ltb_spec i 0); [lia|].
    split; [reflexivity|now apply Hsome].
  - intros Hin.
    destruct (Z.leb_spec 0 i), (Z.ltb_spec i 0),
      (Z.leb_spec 0 (i + Len n)); try lia.
    cbn [andb]. destruct (Z.ltb_spec (i + Len n) 0); [lia|].
    split; [reflexivity|apply Hsome; lia].
  - intros Hout.
    destruct (Z.leb_spec 0 i), (Z.ltb_spec i (Len n)), (Z.ltb_spec i 0),
      (Z.leb_spec 0 (i + Len n)); cbn [andb]; try lia; reflexivity.
Qed.

Lemma OrderedChild_in_OrderedChildren_witness :
  OrderedChild twins (-1) = Some (derive twins second_twin) /\
  OrderedChild twins 2 = None.
Proof.
  assert (H1 : is_int (-1)) by (unfold is_int, int_min, int_max; lia).
  assert (H2 : is_int 2) by (unfold is_int, int_min, int_max; lia).
  assert (HL : is_int (Len twins)) by (rewrite twins_Len; exact H2).
  split.
  - destruct (OrderedChild_in_OrderedChildren twins (-1) H1 HL)
      as (_ & _ & Hneg & _).
    destruct Hneg as [-> _]; [rewrite twins_Len; lia|reflexivity].
  - destruct (OrderedChild_in_OrderedChildren twins 2 H2 HL)
      as (_ & _ & _ & Hout).
    apply Hout. left. rewrite twins_Len. lia.
Defined.

Lemma sectionsNamed_childSections (n : Node) (name : string) :
  sectionsNamed n name =
  List.filter (fun c => String.eqb (sectionNameOf c) name) (childSections n).
Proof.
  unfold sectionsNamed, childSections.
  induction (children (section n)) as [|c cs IH]; [reflexivity|].
  cbn [List.filter]. destruct (isSection c); cbn [andb List.filter].
  - destruct (String.eqb (sectionNameOf c) name); now rewrite IH.
  - exact IH.
Qed.

Lemma UnorderedChild_head (n : Node) (name : string) :
  UnorderedChild n name = derive n <$> head (sectionsNamed n name).
Proof.
  unfold UnorderedChild, WalkChildSections, sectionsNamed.
  rewrite MarkdownNodeFacts.walk_first. now destruct (head _).
Qed.

Lemma UnorderedChildren_last (n : Node) (name : string) :
  UnorderedChildren n !! name = derive n <$> last (sectionsNamed n name).
Proof.
  unfold UnorderedChildren, WalkChildSections, sectionsNamed.
  rewrite MarkdownNodeFacts.walk_last. now destruct (last _).
Qed.

(** A section of [sectionsNamed] is a child section of that name. *)
Lemma sectionsNamed_elem (n : Node) (name : string) (c : node) :
  c ∈ sectionsNamed n name ->
  derive n c ∈ OrderedChildren n /\ sectionNameOf c = name.
Proof.
  rewrite sectionsNamed_childSections, OrderedChildren_childSections.
  rewrite list_elem_of_In, filter_In, <- list_elem_of_In.
  intros [Hc Hname]. split.
  - rewrite SegmentsFacts.map_fmap. now apply list_elem_of_fmap_2.
  - now apply String.eqb_eq.
Qed.

(** Among elements of different names, at most one has a given name. *)
Lemma filter_name_unique {A} (f : A -> string) (name : string) (l : list A) :
  NoDup (map f l) ->
  head (List.filter (fun c => String.eqb (f c) name) l)
  = last (List.filter (fun c => String.eqb (f c) name) l).
Proof.
  induction l as [|a l IH]; [reflexivity|].
  cbn [map List.filter]. intros Hnd. apply NoDup_cons in Hnd as [Ha Hnd].
  destruct (String.eqb_spec (f a) name) as [<-|Hne]; [|now apply IH].
  assert (Hnone : List.filter (fun c => String.eqb (f c) (f a)) l = []).
  { clear IH Hnd. induction l as [|b l IHl]; [reflexivity|].
    cbn [List.filter map] in *. apply not_elem_of_cons in Ha as [Hab Ha].
    destruct (String.eqb_spec (f b) (f a)) as [Heq|_]; [congruence|].
    now apply IHl. }
  now rewrite Hnone.
Qed.

(** X2. The unordered methods of a node agree on which names have a
    child; what either gives for a name is one of [OrderedChildren] and
    is a section of that name; and when the child sections have
    different names, the map of [UnorderedChildren] holds for each name
    what [UnorderedChild] returns. *)
Theorem unordered_lookups_agree (n : Node) :
  (forall name,
     UnorderedChildren n !! name = None <-> UnorderedChild n name = None) /\
  (forall name c,
     UnorderedChildren n !! name = Some c \/ UnorderedChild n name = Some c ->
     c ∈ OrderedChildren n /\ sectionNameOf (section c) = name) /\
  (NoDup (map sectionNameOf (childSections n)) ->
   forall name, UnorderedChildren n !! name = UnorderedChild n name).
Proof.
  split; [|split].
  - intros name. rewrite UnorderedChildren_last, UnorderedChild_head.
    destruct (sectionsNamed n name) as [|c l]; [easy|].
    rewrite last_cons. cbn. destruct (last l); easy.
  - intros name c. rewrite UnorderedChildren_last, UnorderedChild_head.
    intros [H|H].
    + destruct (last (sectionsNamed n name)) as [x|] eqn:Hx; [|discriminate].
      injection H as <-. apply last_Some_elem_of in Hx.
      now apply sectionsNamed_elem.
    + destruct (head (sectionsNamed n name)) as [x|] eqn:Hx; [|discriminate].
      injection H as <-. apply head_Some_elem_of in Hx.
      now apply sectionsNamed_elem.
  - intros Hnd name.
    rewrite UnorderedChildren_last, UnorderedChild_head.
    rewrite sectionsNamed_childSections.
    now rewrite (filter_name_unique sectionNameOf name _ Hnd).
Qed.

(** The document of [sample_doc], as the segmenter leaves it. *)
Lemma unordered_lookups_agree_witness :
  let n := NewNode (Transform "A" sample_doc) "A" None in
  NoDup (map sectionNameOf (childSections n)) /\
  UnorderedChildren n !! "A" = UnorderedChild n "A".
Proof.
  intros n.
  assert (Hnd : NoDup (map sectionNameOf (childSections n))).
  { apply (bool_decide_unpack _). vm_compute. exact I. }
  split; [exact Hnd|].
  exact (proj2 (proj2 (unordered_lookups_agree n)) Hnd "A").
Defined.

(** *** Descent and query *)

Lemma Descend_cons (n : Node) (name : string) (names : list string) :
  Descend n (name :: names) =
    match UnorderedChild n name with
    | Some c => Descend c names
    | None => None
    end.
Proof.
  cbn [Descend]. unfold WalkChildSections. rewrite walk_descend.
  rewrite UnorderedChild_head. unfold sectionsNamed.
  now destruct (head _).
Qed.

Lemma Query_cons_string (n : Node) (q : string) (queries : list query) :
  Query n (QString q :: queries) =
    match UnorderedChild n q with
    | Some c => Query c queries
    | None => None
    end.
Proof.
  cbn [Query]. unfold UnorderedChild.
  now destruct (WalkChildSections n _ None).
Qed.

Lemma Query_cons_int (n : Node) (i : Z) (queries : list query) :
  Query n (QInt i :: queries) =
    match OrderedChild n i with
    | Some c => Query c queries
    | None => None
    end.
Proof.
  cbn [Query]. unfold OrderedChild. cbv zeta.
  destruct (Drill.Index i (Len n) <? 0); [reflexivity|].
  now destruct (snd (WalkChildSections n _ (0, None))).
Qed.

Lemma Descend_Query (names : list string) : forall n,
  Descend n names = Query n (map QString names).
Proof.
  induction names as [|name names IH]; intros n; [reflexivity|].
  cbn [map]. rewrite Descend_cons, Query_cons_string.
  destruct (UnorderedChild n name) as [c|]; [apply IH|reflexivity].
Qed.

(** X3. [Node.Descend] goes the way of [UnorderedChild], one name after
    the other: it returns what the generic [drill.Descend] returns on a
    node that has the branch methods only, and so handing the descent
    over to it, as [drill.Descend] does for a [Descender], changes
    nothing. It is [Node.Query] on the same names. *)
Theorem Descend_by_UnorderedChild (n : Node) (names : list string) :
  Descend n names = @Traversal.Descend Node branches_only (Some n) names /\
  @Traversal.Descend Node node_capabilities (Some n) names = Descend n names /\
  Descend n names = Query n (map QString names).
Proof.
  split; [|split].
  - revert n. induction names as [|name names IH]; intros n; [reflexivity|].
    rewrite Descend_cons. cbn [Traversal.Descend branches_only asDescender
      asUnorderedBranch].
    destruct (UnorderedChild n name) as [c|]; [apply IH|].
    now destruct names.
  - now destruct names.
  - apply Descend_Query.
Qed.

(** X4. [Node.Query] goes the way of [UnorderedChild] for a string and
    of [OrderedChild] for an int, and is nil at a value of another type:
    it returns what the generic [drill.Query] returns on a node that has
    the branch methods only, and so handing the query over to it, as
    [drill.Query] does for a [Queryer], changes nothing. *)
Theorem Query_by_children (n : Node) (queries : list query) :
  Query n queries = @Traversal.Query Node branches_only (Some n) queries /\
  @Traversal.Query Node node_capabilities (Some n) queries = Query n queries.
Proof.
  split.
  - revert n. induction queries as [|q queries IH]; intros n; [reflexivity|].
    destruct q as [s|i|].
    + rewrite Query_cons_string. cbn [Traversal.Query branches_only asQueryer
        asUnorderedBranch].
      destruct (UnorderedChild n s) as [c|]; [apply IH|].
      now destruct queries.
    + rewrite Query_cons_int. cbn [Traversal.Query branches_only asQueryer
        asOrderedBranch].
      destruct (OrderedChild n i) as [c|]; [apply IH|].
      now destruct queries.
    + reflexivity.
  - now destruct queries.
Qed.

(** What one step down gives: a view of a child section, with the same
    source and renderer. *)
Lemma OrderedChildren_view (n c : Node) :
  c ∈ OrderedChildren n ->
  source c = source n /\ renderer c = renderer n /\
  section c ∈ children (section n) /\ isSection (section c) = true.
Proof.
  rewrite OrderedChildren_childSections, SegmentsFacts.map_fmap.
  intros Hc. apply list_elem_of_fmap in Hc as (x & -> & Hx).
  unfold childSections in Hx.
  rewrite list_elem_of_In, filter_In, <- list_elem_of_In in Hx.
  destruct Hx as [Hin Hsec]. now repeat split.
Qed.

Lemma UnorderedChild_elem (n c : Node) (name : string) :
  UnorderedChild n name = Some c -> c ∈ OrderedChildren n.
Proof.
  rewrite UnorderedChild_head.
  destruct (head (sectionsNamed n name)) as [x|] eqn:Hx; [|discriminate].
  intros [= <-]. apply head_Some_elem_of in Hx.
  now apply sectionsNamed_elem in Hx.
Qed.

Lemma OrderedChild_elem (n c : Node) (i : Z) :
  OrderedChild n i = Some c -> c ∈ OrderedChildren n.
Proof.
  rewrite OrderedChild_lookup. cbv zeta.
  destruct (Drill.Index i (Len n) <? 0); [discriminate|].
  apply list_elem_of_lookup_2.
Qed.

Lemma below_trans (p x y : node) : below p x -> below x y -> below p y.
Proof.
  intros Hpx Hxy. induction Hxy as [y Hy|z y _ IH Hy].
  - now apply below_deeper with (x := x).
  - now apply below_deeper with (x := z).
Qed.

Lemma view_below_child (n c : Node) :
  c ∈ OrderedChildren n -> view_below n c.
Proof.
  intros Hc. apply OrderedChildren_view in Hc as (Hs & Hr & Hin & Hsec).
  repeat split; try assumption. now apply below_child.
Qed.

Lemma view_below_trans (n m c : Node) :
  view_below n m -> view_below m c -> view_below n c.
Proof.
  intros (Hs & Hr & Hb & _) (Hs' & Hr' & Hb' & Hsec).
  repeat split; try congruence. now apply below_trans with (x := section m).
Qed.

Lemma view_below_then (n c m : Node) :
  view_below n c -> m = c \/ view_below c m -> view_below n m.
Proof.
  intros Hc [->|Hm]; [exact Hc|]. now apply view_below_trans with (m := c).
Qed.

Lemma Query_view (queries : list query) : forall n m,
  Query n queries = Some m -> m = n \/ view_below n m.
Proof.
  induction queries as [|q queries IH]; intros n m.
  - intros [= <-]. now left.
  - destruct q as [s|i|].
    + rewrite Query_cons_string.
      destruct (UnorderedChild n s) as [c|] eqn:Hc; [|discriminate].
      intros Hq. right. apply UnorderedChild_elem, view_below_child in Hc.
      exact (view_below_then n c m Hc (IH c m Hq)).
    + rewrite Query_cons_int.
      destruct (OrderedChild n i) as [c|] eqn:Hc; [|discriminate].
      intros Hq. right. apply OrderedChild_elem, view_below_child in Hc.
      exact (view_below_then n c m Hc (IH c m Hq)).
    + discriminate.
Qed.

(** X5. What [Node.Query] and [Node.Descend] return after at least one
    step is a view of a section of the tree under the node they start
    from, with the source and the renderer of that node. *)
Theorem Query_returns_view (n m : Node) :
  (forall q queries, Query n (q :: queries) = Some m -> view_below n m) /\
  (forall name names, Descend n (name :: names) = Some m -> view_below n m).
Proof.
  assert (Hq : forall q queries,
            Query n (q :: queries) = Some m -> view_below n m).
  { intros q queries Hq. destruct (Query_view _ _ _ Hq) as [->|Hv]; [|exact Hv].
    destruct q as [s|i|].
    - rewrite Query_cons_string in Hq.
      destruct (UnorderedChild n s) as [c|] eqn:Hc; [|discriminate].
      apply UnorderedChild_elem, view_below_child in Hc.
      exact (view_below_then n c n Hc (Query_view _ _ _ Hq)).
    - rewrite Query_cons_int in Hq.
      destruct (OrderedChild n i) as [c|] eqn:Hc; [|discriminate].
      apply OrderedChild_elem, view_below_child in Hc.
      exact (view_below_then n c n Hc (Query_view _ _ _ Hq)).
    - discriminate. }
  split; [exact Hq|].
  intros name names Hd. rewrite Descend_Query in Hd. cbn [map] in Hd.
  exact (Hq _ _ Hd).
Qed.

Lemma Query_returns_view_witness :
  view_below twins (derive (derive twins first_twin)
                      (SectionNode None EmptyString [para "one"])).
Proof.
  apply (proj1 (Query_returns_view twins _) (QString "A") [QInt 0]).
  reflexivity.
Defined.

(** *** The stream of a rendering *)

Section Track.

Variable chunks : list string.
Variable err : option string.

Lemma on_track_step (s s' : stream) (l : option read) (reads : list read) :
  step s l s' ->
  on_track chunks err s reads ->
  on_track chunks err s' (reads ++ option_list l).
Proof.
  intros Hstep. destruct Hstep; unfold on_track;
    cbn [producer channel option_list pending werr newPipe];
    rewrite ?app_nil_r.
  - intros (He & _ & got & Hr & Hc). repeat split; try assumption.
    exists got. now split.
  - intros (He & _ & got & Hr & Hc). repeat split; try assumption.
    cbn [app] in Hc. rewrite app_nil_r in Hc. now subst got.
  - intros (<- & -> & Hr). split; [reflexivity|].
    exists 0%nat. cbn [replicate]. now rewrite app_nil_r.
  - intros (<- & -> & Hr). split; [reflexivity|].
    exists 0%nat. cbn [replicate]. now rewrite app_nil_r.
  - intros (-> & m & Hr). split; [now destruct err|]. now exists m.
  - destruct g as [todo e'| e'| |].
    + intros (_ & Hw & _). congruence.
    + intros (_ & -> & _). discriminate.
    + intros (-> & m & ->). split; [reflexivity|].
      assert (e = last_error err) as ->.
      { cbn in H. destruct err as [msg|]; cbn in H;
          [now injection H as <-|discriminate]. }
      exists (S m). rewrite <- app_assoc. f_equal.
      symmetry. apply replicate_S_end.
    + intros (-> & m & ->). split; [reflexivity|].
      injection H as <-. exists (S m).
      rewrite <- app_assoc. f_equal. symmetry. apply replicate_S_end.
  - destruct g as [todo e'| e'| |].
    + intros (He & _ & got & -> & Hc). repeat split; try assumption.
      exists (got ++ [chunk]). split.
      * now rewrite map_app.
      * rewrite Hc. cbn [option_list app]. now rewrite <- app_assoc.
    + intros (_ & [=] & _).
    + intros ([=] & _).
    + intros ([=] & _).
Qed.

Lemma on_track_execution (s s' : stream) (reads : list read) :
  execution s reads s' ->
  forall before,
    on_track chunks err s before ->
    on_track chunks err s' (before ++ reads).
Proof.
  induction 1 as [s|s l s' reads s'' Hstep _ IH]; intros before Hb.
  - now rewrite app_nil_r.
  - rewrite app_assoc. apply IH. now apply on_track_step with (s := s).
Qed.

Lemma on_track_streamed (s : stream) (reads : list read) :
  on_track chunks err s reads -> streamed chunks err reads.
Proof.
  unfold on_track, streamed. destruct (producer s) as [todo e|e| |].
  - intros (_ & _ & got & -> & Hc). exists got, 0%nat.
    cbn [replicate]. rewrite app_nil_r. split; [reflexivity|].
    split; [|lia]. rewrite Hc. now apply prefix_app_r.
  - intros (_ & _ & ->). exists chunks, 0%nat.
    cbn [replicate]. rewrite app_nil_r. split; [reflexivity|].
    split; [reflexivity|lia].
  - intros (_ & m & ->). exists chunks, m. now repeat split.
  - intros (_ & m & ->). exists chunks, m. now repeat split.
Qed.

(** Once [Render] is back the goroutine closes the pipe, and the next
    read returns the last error. *)
Lemma rendered_reaches_end :
  exists reads s',
    execution {| producer := Rendered err; channel := newPipe |} reads s' /\
    ReadError (last_error err) ∈ reads.
Proof.
  destruct err as [msg|]; eexists _, _; split.
  - eapply execution_step; [apply step_close_with_error|].
    eapply execution_step;
      [apply (step_read_error _ _ (Failure msg)); reflexivity|].
    apply execution_done.
  - cbn. apply list_elem_of_here.
  - eapply execution_step; [apply step_no_error|].
    eapply execution_step; [apply step_close|].
    eapply execution_step; [apply (step_read_error _ _ EOF); reflexivity|].
    apply execution_done.
  - cbn. apply list_elem_of_here.
Qed.

(** From inside [Render] the two sides can go on until the consumer
    reads the last error. *)
Lemma rendering_reaches_end (todo : list string) :
  forall p,
    werr p = None ->
    exists reads s',
      execution {| producer := Rendering todo err; channel := p |} reads s' /\
      ReadError (last_error err) ∈ reads.
Proof.
  assert (Hend : exists reads s',
    execution {| producer := Rendering [] err; channel := newPipe |}
      reads s' /\ ReadError (last_error err) ∈ reads).
  { destruct rendered_reaches_end as (reads & s' & Hex & Hin).
    exists reads, s'. split; [|exact Hin].
    eapply (execution_step _ None); [apply step_return|exact Hex]. }
  induction todo as [|c todo IH]; intros [[chunk|] w] Hw; cbn in Hw; subst w.
  - destruct Hend as (reads & s' & Hex & Hin).
    exists (Data chunk :: reads), s'. split.
    + eapply (execution_step _ (Some (Data chunk))); [|exact Hex].
      apply step_read_data.
    + now apply list_elem_of_further.
  - exact Hend.
  - destruct (IH {| pending := Some c; werr := None |} eq_refl)
      as (reads & s' & Hex & Hin).
    exists (Data chunk :: reads), s'. split.
    + eapply (execution_step _ (Some (Data chunk))); [apply step_read_data|].
      eapply (execution_step _ None); [apply step_write|exact Hex].
    + now apply list_elem_of_further.
  - destruct (IH {| pending := Some c; werr := None |} eq_refl)
      as (reads & s' & Hex & Hin).
    exists reads, s'. split; [|exact Hin].
    eapply (execution_step _ None); [apply step_write|exact Hex].
Qed.

(** From wherever a run has come to, the consumer can still be given
    the last error. *)
Lemma on_track_reaches_end (s : stream) (reads : list read) :
  on_track chunks err s reads ->
  exists more s',
    execution s more s' /\ ReadError (last_error err) ∈ more.
Proof.
  destruct s as [[todo e|e| |] p]; unfold on_track; cbn [producer channel].
  - intros (-> & Hw & _). now apply rendering_reaches_end.
  - intros (-> & -> & _). apply rendered_reaches_end.
  - intros (-> & _). destruct err as [msg|]; eexists _, _; split.
    + eapply execution_step;
        [apply (step_read_error _ _ (Failure msg)); reflexivity|].
      apply execution_done.
    + cbn. apply list_elem_of_here.
    + eapply execution_step; [apply step_close|].
      eapply execution_step; [apply (step_read_error _ _ EOF); reflexivity|].
      apply execution_done.
    + cbn. apply list_elem_of_here.
  - intros (-> & _). eexists _, _. split.
    + eapply execution_step; [apply step_read_error; reflexivity|].
      apply execution_done.
    + cbn. apply list_elem_of_here.
Qed.

End Track.

(** X6. With a renderer that does not fail, the consumer of the reader
    of [FragmentReader] reads, in every run, chunks of the rendering from
    the first on and then, only after the last of them, the end of the
    stream, which it can always still reach; and the chunks together are
    the string that [Fragment] returns. When the rendering fails,
    [Fragment] returns the empty string whatever was written. *)
Theorem FragmentReader_streams_Fragment (n : Node) (r : Renderer)
    (chunks : list string) :
  renderer n = Some r ->
  (r (source n) (section n) = (chunks, None) ->
   Fragment n = fold_right String.append EmptyString chunks /\
   exists s,
     FragmentReader n = inl s /\
     forall reads s',
       execution s reads s' ->
       streamed chunks None reads /\
       exists more s'', execution s' more s'' /\ ReadError EOF ∈ more) /\
  (forall msg,
     r (source n) (section n) = (chunks, Some msg) ->
     Fragment n = EmptyString).
Proof.
  intros Hr. split.
  - intros Hren. split; [unfold Fragment; now rewrite Hr, Hren|].
    exists {| producer := Rendering chunks None; channel := newPipe |}.
    split; [unfold FragmentReader; now rewrite Hr, Hren|].
    intros reads s' Hex.
    assert (Hinit :
              on_track chunks None
                {| producer := Rendering chunks None; channel := newPipe |}
                []).
    { unfold on_track. cbn. repeat split. now exists []. }
    pose proof (on_track_execution chunks None _ _ _ Hex [] Hinit) as Hon.
    cbn [app] in Hon. split.
    + now apply on_track_streamed with (s := s').
    + exact (on_track_reaches_end chunks None s' reads Hon).
  - intros msg Hren. unfold Fragment. now rewrite Hr, Hren.
Qed.

Lemma FragmentReader_streams_Fragment_witness :
  let n := NewNode first_twin "A" (Some (fun _ _ => (["<p>"; "one"], None))) in
  Fragment n = "<p>one" /\
  exists s,
    FragmentReader n = inl s /\
    forall reads s',
      execution s reads s' -> streamed ["<p>"; "one"] None reads.
Proof.
  intros n.
  destruct (proj1 (FragmentReader_streams_Fragment n
                     (fun _ _ => (["<p>"; "one"], None)) ["<p>"; "one"]
                     eq_refl) eq_refl)
    as (Hfrag & s & Hs & Hall).
  split; [exact Hfrag|]. exists s. split; [exact Hs|].
  intros reads s' Hex. exact (proj1 (Hall reads s' Hex)).
Defined.

End MarkdownQueriesFacts.

(** ** Properties of named descent, typed query and enumeration *)

Module TraversalFacts.

Import Go Drill Traversal.

(** *** Descent and query without overrides *)

Section Plain.

Context {N : Type} `{Capabilities N}.

Lemma Descend_nil (names : list string) :
  names <> [] -> Descend (@None N) names = None.
Proof. now destruct names. Qed.

Lemma Query_nil (queries : list query) :
  queries <> [] -> Query (@None N) queries = None.
Proof. now destruct queries. Qed.

Hypothesis no_descender : forall v : N, asDescender v = None.
Hypothesis no_queryer : forall v : N, asQueryer v = None.

Lemma Descend_app (a b : list string) : forall n : option N,
  Descend n (a ++ b) = Descend (Descend n a) b.
Proof.
  induction a as [|name a IH]; intros n; [reflexivity|].
  cbn [app Descend]. destruct n as [v|]; [|now destruct b].
  rewrite no_descender.
  destruct (asUnorderedBranch v) as [child|]; [apply IH|now destruct b].
Qed.

Lemma Query_app (a b : list query) : forall n : option N,
  Query n (a ++ b) = Query (Query n a) b.
Proof.
  induction a as [|q a IH]; intros n; [reflexivity|].
  cbn [app Query]. destruct n as [v|]; [|now destruct b].
  rewrite no_queryer. destruct q as [s|i|].
  - destruct (asUnorderedBranch v) as [child|]; [apply IH|now destruct b].
  - destruct (asOrderedBranch v) as [child|]; [apply IH|now destruct b].
  - now destruct b.
Qed.

Lemma Descend_as_Query (names : list string) : forall n : option N,
  Descend n names = Query n (map QString names).
Proof.
  induction names as [|name names IH]; intros n; [reflexivity|].
  cbn [map Descend Query]. destruct n as [v|]; [|reflexivity].
  rewrite no_descender, no_queryer.
  destruct (asUnorderedBranch v) as [child|]; [apply IH|reflexivity].
Qed.

End Plain.

(** X7. Over nodes of a type that overrides neither [Descend] nor
    [Query], the generic traversals go one step per element: a descent
    along [a ++ b] is a descent along [b] from where the descent along
    [a] ends, nil included; the same holds of queries; and a descent is
    the query with its names as strings. *)
Theorem traversal_by_steps {N : Type} `{Capabilities N} (n : option N) :
  (forall v : N, asDescender v = None) ->
  (forall v : N, asQueryer v = None) ->
  (forall a b, Descend n (a ++ b) = Descend (Descend n a) b) /\
  (forall a b, Query n (a ++ b) = Query (Query n a) b) /\
  (forall names, Descend n names = Query n (map QString names)).
Proof.
  intros Hd Hq. split; [|split].
  - intros a b. now apply Descend_app.
  - intros a b. now apply Query_app.
  - intros names. now apply Descend_as_Query.
Qed.

Lemma traversal_by_steps_witness :
  @Descend _ MarkdownQueries.branches_only (Some MarkdownNode.twins)
    (["A"] ++ [EmptyString])
  = @Descend _ MarkdownQueries.branches_only
      (@Descend _ MarkdownQueries.branches_only (Some MarkdownNode.twins) ["A"])
      [EmptyString].
Proof.
  exact (proj1 (@traversal_by_steps _ MarkdownQueries.branches_only
                  (Some MarkdownNode.twins)
                  (fun _ => eq_refl) (fun _ => eq_refl))
           ["A"] [EmptyString]).
Defined.

(** *** Enumeration *)

Lemma children_nil_or_not (cs : list (option Node)) :
  Forall (fun c => c = None) cs \/ exists c, Some c ∈ cs.
Proof.
  induction cs as [|[c|] cs IH].
  - left. constructor.
  - right. exists c. apply list_elem_of_here.
  - destruct IH as [Hall|(c & Hc)].
    + left. now constructor.
    + right. exists c. now apply list_elem_of_further.
Qed.

(** X8. [Descendants] returns nothing but the empty list: it returns,
    and then the empty list, exactly for a node that is nil, is no
    [OrderedBranch], or has no ordered child that is not nil; for every
    other node the call nest is deeper than any stack. *)
Theorem Descendants_only_empty (n : option Node) :
  (childless n -> forall fuel, Descendants (S fuel) n = Some []) /\
  (~ childless n -> forall fuel, Descendants fuel n = None) /\
  (forall fuel l, Descendants fuel n = Some l -> l = [] /\ childless n).
Proof.
  assert (Hyes : childless n -> forall fuel, Descendants (S fuel) n = Some []).
  { destruct n as [[f|f cs]|]; cbn [childless OrderedChildren];
      unfold Descendants; cbn [Drill.asOrderedBranch]; try reflexivity.
    intros Hall fuel. now apply DrillFacts.descendants_nil_children. }
  assert (Hno : ~ childless n -> forall fuel, Descendants fuel n = None).
  { destruct n as [[f|f cs]|]; cbn [childless OrderedChildren];
      unfold Descendants; cbn [Drill.asOrderedBranch].
    - intros Hn. destruct Hn. constructor.
    - intros Hn fuel. destruct (children_nil_or_not cs) as [Hall|(c & Hc)];
        [contradiction|].
      now apply DrillFacts.descendants_diverges with (c := c).
    - intros Hn. now destruct Hn. }
  split; [exact Hyes|]. split; [exact Hno|].
  intros fuel l Hl.
  assert (Hc : childless n).
  { destruct n as [[f|f cs]|]; cbn [childless OrderedChildren];
      try constructor.
    destruct (children_nil_or_not cs) as [Hall|(c & Hc)]; [assumption|].
    rewrite Hno in Hl; [discriminate|].
    cbn [childless OrderedChildren]. intros Hall.
    rewrite Forall_forall in Hall. specialize (Hall _ Hc). discriminate. }
  split; [|exact Hc].
  destruct fuel as [|fuel].
  - destruct n as [[f|f cs]|]; cbn in Hl; congruence.
  - rewrite (Hyes Hc fuel) in Hl. congruence.
Qed.

Lemma Descendants_only_empty_witness :
  Descendants 1 (Some (Branch "root" [None; None])) = Some [] /\
  Descendants 7 (Some one_child) = None.
Proof.
  split.
  - apply (proj1 (Descendants_only_empty (Some (Branch "root" [None; None])))).
    repeat constructor.
  - apply (proj1 (proj2 (Descendants_only_empty (Some one_child)))).
    intros Hc. apply Forall_inv in Hc. discriminate.
Defined.

End TraversalFacts.

(** ** Properties of the handlers and of the methods of [FS] *)

Module FilesysHandlersFacts.

Import Go Filesys FilesysHandlers.

(** *** The ordered methods *)

Lemma entries_open_or_not (fsys : FSys) (subs : list DirEntry) :
  Forall (fun entry => methodSub fsys (Name entry) = None) subs \/
  exists entry, entry ∈ subs /\ is_Some (methodSub fsys (Name entry)).
Proof.
  induction subs as [|e subs IH]; [left; constructor|].
  destruct (methodSub fsys (Name e)) as [sub|] eqn:He.
  - right. exists e. split; [apply list_elem_of_here|]. rewrite He. eauto.
  - destruct IH as [Hall|(entry & Hin & Hs)].
    + left. now constructor.
    + right. exists entry. split; [now apply list_elem_of_further|exact Hs].
Qed.

(** X9. [FS.OrderedChildren] never returns a child: what it returns is
    the empty slice, and it panics exactly when the wrapped file system
    has a [Sub] method, its directory can be read, and [Sub] opens one of
    the entries. *)
Theorem OrderedChildren_empty_or_panics (f : FS) :
  (forall l, OrderedChildren f = Returns l -> l = []) /\
  ((exists msg, OrderedChildren f = Panics msg) <->
   exists fsys,
     FS_ f = Some fsys /\ implSubFS fsys = true /\ dirErr fsys = false /\
     exists entry,
       entry ∈ dirList fsys /\ is_Some (methodSub fsys (Name entry))).
Proof.
  unfold OrderedChildren. destruct (FS_ f) as [fsys|] eqn:Hf.
  2:{ split; [now intros l [= <-]|]. split.
      - intros (msg & Hm). discriminate.
      - intros (fsys & Hs & _). discriminate. }
  destruct (implSubFS fsys) eqn:Hs; cbn [negb].
  2:{ split; [now intros l [= <-]|]. split.
      - intros (msg & Hm). discriminate.
      - intros (fsys' & [= <-] & Hs' & _). congruence. }
  destruct (dirErr fsys) eqn:He.
  { split; [now intros l [= <-]|]. split.
    - intros (msg & Hm). discriminate.
    - intros (fsys' & [= <-] & _ & He' & _). congruence. }
  destruct (entries_open_or_not fsys (dirList fsys)) as [Hall|Hex].
  - rewrite (FilesysFacts.rangeSubs_returns fsys _ 0 _ Hall).
    split; [now intros l [= <-]|]. split.
    + intros (msg & Hm). discriminate.
    + intros (fsys' & [= <-] & _ & _ & entry & Hin & Hsome).
      rewrite Forall_forall in Hall. rewrite (Hall entry Hin) in Hsome.
      now destruct Hsome.
  - rewrite (FilesysFacts.rangeSubs_panics fsys _ 0 (make 0 _));
      [|cbn; lia|exact Hex].
    split; [discriminate|]. split.
    + intros _. exists fsys. now repeat split.
    + intros _. eauto.
Qed.

Lemma OrderedChildren_empty_or_panics_witness :
  exists msg,
    OrderedChildren {| FS_ := Some one_entry_dir; handlers := [] |}
    = Panics msg.
Proof.
  apply (proj2 (proj2 (OrderedChildren_empty_or_panics
                         {| FS_ := Some one_entry_dir; handlers := [] |}))).
  exists one_entry_dir. repeat split.
  exists {| Name := "a"; IsDir := true |}.
  split; [apply list_elem_of_here|]. cbn. eauto.
Defined.

Local Open Scope Z_scope.

(** X10. [FS.OrderedChild] never panics. When it returns a child, the
    child wraps what [fs.Sub] makes of the entry at the normalized index
    of the listing and has the handlers of its parent; an index from
    [-Len] to [-1] gives what the index [Len] higher gives; and every
    index outside [-Len .. Len - 1] gives nil. *)
Theorem OrderedChild_by_index (f : FS) (i : Z) :
  is_int i -> is_int (Len f) ->
  (exists r, OrderedChild f i = Returns r) /\
  (forall c,
     OrderedChild f i = Returns (Some c) ->
     handlers c = handlers f /\
     exists fsys entry,
       FS_ f = Some fsys /\ dirErr fsys = false /\
       dirList fsys !! Z.to_nat (Drill.Index i (Len f)) = Some entry /\
       FS_ c = fsSub fsys (Name entry)) /\
  (- Len f <= i < 0 -> OrderedChild f i = OrderedChild f (i + Len f)) /\
  (Len f <= i \/ i < - Len f -> OrderedChild f i = Returns None).
Proof.
  intros Hi Hlen.
  split; [now apply FilesysFacts.OrderedChild_returns|].
  unfold OrderedChild, Len in *. destruct (FS_ f) as [fsys|] eqn:Hf.
  2:{ split; [discriminate|]. split; reflexivity. }
  set (len := Z.of_nat (length (dirList fsys))) in *.
  split; [|split].
  - intros c. destruct (dirErr fsys) eqn:He; [discriminate|].
    destruct (Drill.Index i len <? 0); [discriminate|].
    destruct (dirList fsys !! Z.to_nat (Drill.Index i len)) as [entry|] eqn:Hl;
      [|discriminate].
    destruct (fsSub fsys (Name entry)) as [sub|] eqn:Hsub; [|discriminate].
    intros [= <-]. split; [reflexivity|].
    exists fsys, entry. now repeat split.
  - intros Hneg. destruct (dirErr fsys); [reflexivity|].
    assert (Hilen : is_int (i + len)).
    { unfold is_int, int_min, int_max in *. lia. }
    rewrite (MarkdownQueriesFacts.Index_value i len Hi Hlen).
    rewrite (MarkdownQueriesFacts.Index_value (i + len) len Hilen Hlen).
    destruct (Z.leb_spec 0 i), (Z.ltb_spec i len), (Z.ltb_spec i 0),
      (Z.leb_spec 0 (i + len)), (Z.ltb_spec (i + len) len);
      cbn [andb]; try lia; reflexivity.
  - intros Hout. destruct (dirErr fsys); [reflexivity|].
    rewrite (MarkdownQueriesFacts.Index_value i len Hi Hlen).
    destruct (Z.leb_spec 0 i), (Z.ltb_spec i len), (Z.ltb_spec i 0),
      (Z.leb_spec 0 (i + len)); cbn [andb]; try lia; reflexivity.
Qed.

Lemma OrderedChild_by_index_witness :
  OrderedChild {| FS_ := Some plain_dir; handlers := [] |} (-1)
  = OrderedChild {| FS_ := Some plain_dir; handlers := [] |} 0 /\
  OrderedChild {| FS_ := Some plain_dir; handlers := [] |} 1 = Returns None.
Proof.
  assert (Hm : is_int (-1)) by (unfold is_int, int_min, int_max; lia).
  assert (H1 : is_int 1) by (unfold is_int, int_min, int_max; lia).
  split.
  - apply (OrderedChild_by_index
             {| FS_ := Some plain_dir; handlers := [] |} (-1) Hm H1).
    cbn. lia.
  - apply (OrderedChild_by_index
             {| FS_ := Some plain_dir; handlers := [] |} 1 H1 H1).
    cbn. lia.
Defined.

Local Close Scope Z_scope.

(** *** Handlers *)

Section Matching.

Variable pathMatch : string -> string -> option bool.

Lemma firstMalformed_found (handlers : Handlers) : forall base i pattern,
  firstMalformed pathMatch base handlers = Some (i, pattern) ->
  exists k func,
    i = (base + k)%nat /\
    handlers !! k = Some (pattern, func) /\
    pathMatch pattern EmptyString = None /\
    forall j h, (j < k)%nat -> handlers !! j = Some h ->
                is_Some (pathMatch (fst h) EmptyString).
Proof.
  induction handlers as [|[p func] handlers IH]; intros base i pattern;
    cbn [firstMalformed]; [discriminate|].
  destruct (pathMatch p EmptyString) as [b|] eqn:Hp.
  - intros Hf. destruct (IH _ _ _ Hf) as (k & func' & -> & Hk & Hbad & Hok).
    exists (S k), func'. split; [lia|]. split; [exact Hk|].
    split; [exact Hbad|].
    intros [|j] h Hj Hh.
    + injection Hh as <-. cbn. rewrite Hp. eauto.
    + apply (Hok j h); [lia|exact Hh].
  - intros [= <- <-]. exists 0%nat, func. split; [lia|].
    split; [reflexivity|]. split; [exact Hp|]. intros j h Hj. lia.
Qed.

Lemma firstMalformed_none (handlers : Handlers) : forall base,
  firstMalformed pathMatch base handlers = None ->
  Forall (fun h => is_Some (pathMatch (fst h) EmptyString)) handlers.
Proof.
  induction handlers as [|[p func] handlers IH]; intros base;
    cbn [firstMalformed]; [constructor|].
  destruct (pathMatch p EmptyString) as [b|] eqn:Hp; [|discriminate].
  intros Hf. constructor; [cbn; rewrite Hp; eauto|now apply IH with (S base)].
Qed.

(** X11. [NewFS] refuses a list of handlers exactly when a pattern is
    malformed, and its error names the first such handler by index and
    pattern; otherwise the [FS] wraps the file system it was given and
    [Handlers] returns the handlers, none of them malformed. *)
Theorem NewFS_reports_first_malformed (fsys : option FSys)
    (handlers : Handlers) :
  (forall f,
     NewFS pathMatch fsys handlers = inl f ->
     FS_ f = fsys /\ HandlersOf f = handlers /\
     Forall (fun h => is_Some (pathMatch (fst h) EmptyString)) handlers) /\
  (forall i pattern,
     NewFS pathMatch fsys handlers = inr (i, pattern) ->
     pathMatch pattern EmptyString = None /\
     (exists func, handlers !! i = Some (pattern, func)) /\
     forall j h, (j < i)%nat -> handlers !! j = Some h ->
                 is_Some (pathMatch (fst h) EmptyString)).
Proof.
  unfold NewFS. split.
  - intros f. destruct (firstMalformed pathMatch 0 handlers) eqn:Hf;
      [discriminate|].
    intros [= <-]. repeat split. now apply firstMalformed_none with 0%nat.
  - intros i pattern.
    destruct (firstMalformed pathMatch 0 handlers) as [e|] eqn:Hf;
      [|discriminate].
    intros [= ->].
    destruct (firstMalformed_found _ _ _ _ Hf)
      as (k & func & -> & Hk & Hb & Hok).
    cbn [plus]. split; [exact Hb|]. split; [eauto|exact Hok].
Qed.

Lemma first_match_or_none (hs : Handlers) (file : string) :
  Forall (fun h => pathMatch (fst h) file <> Some true) hs \/
  exists i h, firstMatch pathMatch hs file i h.
Proof.
  induction hs as [|h hs IH].
  - left. constructor.
  - destruct (pathMatch (fst h) file) as [[|]|] eqn:Hp.
    + right. exists 0%nat, h. split; [reflexivity|]. split; [exact Hp|].
      intros j h' Hj. lia.
    + destruct IH as [Hall|(i & h' & Hi & Hm & Hbefore)].
      * left. constructor; [congruence|exact Hall].
      * right. exists (S i), h'. split; [exact Hi|]. split; [exact Hm|].
        intros [|j] x Hj Hx.
        -- injection Hx as <-. congruence.
        -- apply (Hbefore j x); [lia|exact Hx].
    + destruct IH as [Hall|(i & h' & Hi & Hm & Hbefore)].
      * left. constructor; [congruence|exact Hall].
      * right. exists (S i), h'. split; [exact Hi|]. split; [exact Hm|].
        intros [|j] x Hj Hx.
        -- injection Hx as <-. congruence.
        -- apply (Hbefore j x); [lia|exact Hx].
Qed.

Lemma Match_at_first (hs : Handlers) (file : string) : forall i h,
  firstMatch pathMatch hs file i h -> Match pathMatch hs file = snd h.
Proof.
  induction hs as [|[p func] hs IH]; intros i h (Hi & Hm & Hbefore).
  - discriminate.
  - cbn [Match]. destruct i as [|i].
    + injection Hi as <-. cbn [fst] in Hm. now rewrite Hm.
    + assert (Hp : pathMatch p file <> Some true).
      { apply (Hbefore 0%nat (p, func)); [lia|reflexivity]. }
      assert (Hrest : Match pathMatch hs file = snd h).
      { apply (IH i). split; [exact Hi|]. split; [exact Hm|].
        intros j h' Hj Hh'. apply (Hbefore (S j) h'); [lia|exact Hh']. }
      destruct (pathMatch p file) as [[|]|]; [congruence|exact Hrest..].
Qed.

Lemma Match_no_match (hs : Handlers) (file : string) :
  Forall (fun h => pathMatch (fst h) file <> Some true) hs ->
  Match pathMatch hs file = None.
Proof.
  induction hs as [|[p func] hs IH]; intros Hall; [reflexivity|].
  cbn [Match]. pose proof (Forall_inv Hall) as Hp. cbn [fst] in Hp.
  specialize (IH (Forall_inv_tail Hall)).
  destruct (pathMatch p file) as [[|]|]; [congruence|exact IH..].
Qed.

(** X12. [Handlers.Match] gives the field [Func] of the first handler
    whose pattern matches the file, nil when that field is nil, a
    malformed pattern matching nothing. So a function it gives is the
    one of the first matching handler, and it gives nil exactly when no
    pattern matches or the first handler that matches has no
    function, whatever handlers follow. *)
Theorem Match_first_wins (hs : Handlers) (file : string) :
  (forall i h,
     firstMatch pathMatch hs file i h -> Match pathMatch hs file = snd h) /\
  (forall func,
     Match pathMatch hs file = Some func ->
     exists i pattern, firstMatch pathMatch hs file i (pattern, Some func)) /\
  (Match pathMatch hs file = None <->
   Forall (fun h => pathMatch (fst h) file <> Some true) hs \/
   exists i pattern, firstMatch pathMatch hs file i (pattern, None)).
Proof.
  split; [apply Match_at_first|]. split.
  - intros func Hm.
    destruct (first_match_or_none hs file) as [Hall|(i & [p f] & Hf)].
    + rewrite (Match_no_match hs file Hall) in Hm. discriminate.
    + rewrite (Match_at_first hs file i _ Hf) in Hm. cbn [snd] in Hm.
      subst f. now exists i, p.
  - split.
    + intros Hm.
      destruct (first_match_or_none hs file) as [Hall|(i & [p f] & Hf)];
        [now left|].
      rewrite (Match_at_first hs file i _ Hf) in Hm. cbn [snd] in Hm.
      subst f. right. now exists i, p.
    + intros [Hall|(i & p & Hf)]; [now apply Match_no_match|].
      now rewrite (Match_at_first hs file i _ Hf).
Qed.

End Matching.

Lemma NewFS_reports_first_malformed_witness :
  NewFS literal None
    [("*.md", Some leaf_of); ("[", Some leaf_of); ("[", Some leaf_of)]
  = inr (1%nat, "[") /\
  literal "[" EmptyString = None.
Proof.
  split; [reflexivity|].
  exact (proj1 (proj2 (NewFS_reports_first_malformed literal None
                         [("*.md", Some leaf_of); ("[", Some leaf_of);
                          ("[", Some leaf_of)])
                      1%nat "[" eq_refl)).
Defined.

(** A handler without a function hides the handlers that follow it. *)
Lemma Match_first_wins_witness :
  Match literal [("[", Some leaf_of); ("b.md", None); ("b.md", Some leaf_of)]
    "b.md" = None /\
  Match literal [("[", Some leaf_of); ("b.md", Some leaf_of)] "b.md"
  = Some leaf_of.
Proof.
  split.
  - apply (proj1 (Match_first_wins literal
                    [("[", Some leaf_of); ("b.md", None);
                     ("b.md", Some leaf_of)] "b.md")
             1%nat ("b.md", None)).
    split; [reflexivity|]. split; [reflexivity|].
    intros [|j] h' Hj Hh; [|lia].
    cbn in Hh. injection Hh as <-. discriminate.
  - apply (proj1 (Match_first_wins literal
                    [("[", Some leaf_of); ("b.md", Some leaf_of)] "b.md")
             1%nat ("b.md", Some leaf_of)).
    split; [reflexivity|]. split; [reflexivity|].
    intros [|j] h' Hj Hh; [|lia].
    cbn in Hh. injection Hh as <-. discriminate.
Defined.

(** *** The unordered methods *)

Section Unordered.

Variable pathMatch : string -> string -> option bool.
Variable fsStat : FSys -> string -> option bool.





End Unordered.


End FilesysHandlersFacts.

(** ** Properties of the segmenter: headings and runs *)

Module RunsFacts.

Import Go Markdown Segments Runs.

Local Open Scope Z_scope.

Lemma run_at_opens (level : Z) (cs : list node) :
  run_at level cs <-> Forall (fun c => opens level c = None) cs.
Proof.
  unfold run_at. rewrite Forall_forall. split.
  - intros Hrun c Hc. destruct c as [h|k ch|hd nm ch]; try reflexivity.
    cbn [opens]. destruct (Z.eqb_spec (Level h) level) as [Heq|Hne];
      [|reflexivity].
    now destruct (Hrun h Hc).
  - intros Hall h Hh Hl. specialize (Hall _ Hh). cbn [opens] in Hall.
    rewrite (proj2 (Z.eqb_eq _ _) Hl) in Hall. discriminate.
Qed.

Lemma emitted_extend (s : Section) (c : node) : emitted (extend s c) = true.
Proof.
  unfold emitted, ChildCount. cbn [extend Heading Children].
  rewrite length_app. cbn [length].
  destruct (Heading s); [reflexivity|]. cbn [orb]. apply Z.ltb_lt. lia.
Qed.

(** Children that hold no heading of the level all go to the section
    under construction. *)
Lemma grouped_run source level (run : list node) : forall s rest,
  Forall (fun c => opens level c = None) run ->
  grouped source level s (run ++ rest)
  = grouped source level
      {| Heading := Heading s; Name := Name s; Children := Children s ++ run |}
      rest.
Proof.
  induction run as [|c run IH]; intros s rest Hrun.
  - cbn [app]. rewrite app_nil_r. now destruct s.
  - cbn [app grouped]. rewrite (Forall_inv Hrun).
    rewrite (IH _ _ (Forall_inv_tail Hrun)). cbn [extend Heading Name Children].
    now rewrite <- app_assoc.
Qed.

(** The pass reaches a heading of its level with a new section. *)
Lemma grouped_upto source level (pre : list node) : forall s c h rest,
  opens level c = Some h ->
  exists front,
    grouped source level s (pre ++ c :: rest)
    = front ++ c :: grouped source level (fresh source h) rest.
Proof.
  induction pre as [|p pre IH]; intros s c h rest Ho.
  - cbn [app grouped]. rewrite Ho. now exists (close s).
  - cbn [app grouped]. destruct (opens level p) as [hp|].
    + destruct (IH (fresh source hp) c h rest Ho) as (front & ->).
      exists (close s ++ p :: front). now rewrite <- app_assoc.
    + apply IH. exact Ho.
Qed.

(** A section with a heading is left first, whatever follows its run. *)
Lemma grouped_section_first source level (s : Section) (h : heading)
    (rest : list node) :
  Heading s = Some h ->
  leads level rest = false ->
  exists tail, grouped source level s rest = asNode s :: tail.
Proof.
  intros Hs Hrest. destruct rest as [|c rest]; cbn [grouped].
  - unfold close. rewrite (SegmentsFacts.emitted_heading s h Hs). eauto.
  - cbn [leads] in Hrest. destruct (opens level c) as [hc|]; [|discriminate].
    unfold close. rewrite (SegmentsFacts.emitted_heading s h Hs).
    cbn [app]. eauto.
Qed.

(** X14. When none of the children is a heading of the level of the
    pass, [compileSection] puts them all, as they are, into one section
    without heading and name, which it does not go into; of no children
    it makes nothing. *)
Theorem compileSection_without_heading (source : string) (level : Z)
    (cs : list node) :
  run_at level cs ->
  compileSection source level cs =
    match cs with
    | [] => []
    | _ :: _ => [SectionNode None EmptyString cs]
    end.
Proof.
  intros Hrun. apply run_at_opens in Hrun.
  rewrite SegmentsFacts.compileSection_grouped.
  assert (Hg : grouped source level NewSection cs =
               match cs with
               | [] => []
               | _ :: _ => [SectionNode None EmptyString cs]
               end).
  { rewrite <- (app_nil_r cs) at 1. rewrite grouped_run by assumption.
    cbn [grouped NewSection Heading Name Children app]. unfold close, emitted.
    cbn [Heading ChildCount Children orb].
    destruct cs as [|c cs]; [reflexivity|]. reflexivity. }
  rewrite Hg. destruct (level >=? 6); [reflexivity|].
  now destruct cs.
Qed.

Lemma compileSection_without_heading_witness :
  compileSection "A" 1 [HeadingNode (headingOf 2 [] 1); para "text"]
  = [SectionNode None EmptyString
       [HeadingNode (headingOf 2 [] 1); para "text"]].
Proof.
  apply (compileSection_without_heading "A" 1
           [HeadingNode (headingOf 2 [] 1); para "text"]).
  intros h Hh Hl.
  apply elem_of_cons in Hh as [[= ->]|Hh]; [discriminate|].
  apply elem_of_cons in Hh as [?|Hh]; [discriminate|inversion Hh].
Defined.

(** The names of the sections of one pass. *)
Lemma grouped_names source level (cs : list node) : forall s,
  map MarkdownNode.sectionNameOf
    (List.filter isSection (grouped source level s cs))
  = (if match cs with
        | [] => emitted s
        | c :: _ =>
            match opens level c with
            | Some _ => emitted s
            | None => true
            end
        end
     then [Name s] else [])
    ++ map (sectionName source) (headingsAt level cs).
Proof.
  assert (Hclose : forall s,
    map MarkdownNode.sectionNameOf (List.filter isSection (close s))
    = if emitted s then [Name s] else []).
  { intros s. unfold close. now destruct (emitted s). }
  unfold headingsAt.
  induction cs as [|c cs IH]; intros s; cbn [grouped omap list_omap].
  - rewrite Hclose. cbn [map]. now rewrite app_nil_r.
  - fold (omap (opens level) cs).
    destruct (opens level c) as [h|] eqn:Ho.
    + destruct (SegmentsFacts.opens_heading _ _ _ Ho) as [-> _].
      rewrite List.filter_app, map_app, Hclose. cbn [List.filter isSection].
      rewrite IH. f_equal. cbn [map].
      assert (He : match cs with
                   | [] => emitted (fresh source h)
                   | c :: _ =>
                       match opens level c with
                       | Some _ => emitted (fresh source h)
                       | None => true
                       end
                   end = true).
      { destruct cs as [|c' cs']; [reflexivity|].
        now destruct (opens level c'). }
      now rewrite He.
    + rewrite IH.
      assert (He : match cs with
                   | [] => emitted (extend s c)
                   | c' :: _ =>
                       match opens level c' with
                       | Some _ => emitted (extend s c)
                       | None => true
                       end
                   end = true).
      { destruct cs as [|c' cs']; [apply emitted_extend|].
        destruct (opens level c'); [apply emitted_extend|reflexivity]. }
      now rewrite He.
Qed.

Lemma recurse_name compile (x : node) :
  MarkdownNode.sectionNameOf (recurse compile x) = MarkdownNode.sectionNameOf x.
Proof. now destruct x as [h|k cs|[h|] name cs]. Qed.

Lemma filter_map_recurse compile (l : list node) :
  List.filter isSection (map (recurse compile) l)
  = map (recurse compile) (List.filter isSection l).
Proof.
  induction l as [|x l IH]; [reflexivity|].
  cbn [map List.filter]. rewrite SegmentsFacts.recurse_section.
  destruct (isSection x); cbn [map]; now rewrite IH.
Qed.

Lemma names_after_pass (source : string) (level : Z) (cs : list node) :
  map MarkdownNode.sectionNameOf
    (List.filter isSection (compileSection source level cs))
  = (if leads level cs then [EmptyString] else [])
    ++ map (sectionName source) (headingsAt level cs).
Proof.
  rewrite SegmentsFacts.compileSection_grouped.
  assert (Hg : map MarkdownNode.sectionNameOf
                 (List.filter isSection (grouped source level NewSection cs))
               = (if leads level cs then [EmptyString] else [])
                 ++ map (sectionName source) (headingsAt level cs)).
  { rewrite grouped_names. unfold leads.
    destruct cs as [|c cs]; [reflexivity|].
    now destruct (opens level c). }
  destruct (level >=? 6); [exact Hg|].
  rewrite filter_map_recurse, map_map, <- Hg.
  apply map_ext. intros x. apply recurse_name.
Qed.

Lemma headingsAt_elem (level : Z) (cs : list node) (h : heading) :
  HeadingNode h ∈ cs -> Level h = level -> h ∈ headingsAt level cs.
Proof.
  intros Hin Hl. unfold headingsAt. apply list_elem_of_omap.
  exists (HeadingNode h). split; [exact Hin|].
  cbn [opens]. now rewrite (proj2 (Z.eqb_eq _ _) Hl).
Qed.

(** X15. After [compileSection] at a level, the names of the sections in
    the child list of the parent are, in order: the empty name of the
    section without heading, if the children start with something else
    than a heading of that level; then, for each heading of that level,
    the name worked out for it. So there are as many sections as such
    headings, and one more for what comes before the first. *)
Theorem compileSection_names (source : string) (level : Z) (cs : list node) :
  let sections := List.filter isSection (compileSection source level cs) in
  map MarkdownNode.sectionNameOf sections
  = (if leads level cs then [EmptyString] else [])
    ++ map (sectionName source) (headingsAt level cs) /\
  length sections
  = ((if leads level cs then 1 else 0) + length (headingsAt level cs))%nat.
Proof.
  cbv zeta. pose proof (names_after_pass source level cs) as Hn.
  split; [exact Hn|].
  apply (f_equal (@length string)) in Hn.
  rewrite length_map, length_app, length_map in Hn. rewrite Hn.
  now destruct (leads level cs).
Qed.

(** X16. Over the child list that [compileSection] leaves, the node
    counts with [Len] the headings of the level and one more for what
    comes before the first, and [UnorderedChild] finds, for the name
    worked out for any heading of the level, a child section of that
    name. *)
Theorem headings_found_by_name (source : string) (level : Z)
    (cs : list node) (kind : string)
    (r : option MarkdownNode.Renderer) :
  let n :=
    MarkdownNode.NewNode (OtherNode kind (compileSection source level cs))
      source r in
  MarkdownNode.Len n
  = (if leads level cs then 1 else 0)
    + Z.of_nat (length (headingsAt level cs)) /\
  forall h,
    HeadingNode h ∈ cs -> Level h = level ->
    exists c,
      MarkdownNode.UnorderedChild n (sectionName source h) = Some c /\
      MarkdownNode.sectionNameOf (MarkdownNode.section c)
      = sectionName source h.
Proof.
  intros n.
  pose proof (names_after_pass source level cs) as Hn.
  assert (Hcs : MarkdownQueries.childSections n
                = List.filter isSection (compileSection source level cs))
    by reflexivity.
  split.
  - rewrite MarkdownQueriesFacts.Len_childSections, Hcs.
    apply (f_equal (@length string)) in Hn.
    rewrite length_map, length_app, length_map in Hn. rewrite Hn.
    destruct (leads level cs); cbn [length]; lia.
  - intros h Hin Hl.
    assert (Hname : sectionName source h
              ∈ map MarkdownNode.sectionNameOf
                  (MarkdownQueries.childSections n)).
    { rewrite Hcs, Hn. apply elem_of_app. right.
      rewrite SegmentsFacts.map_fmap. apply list_elem_of_fmap_2.
      now apply headingsAt_elem. }
    rewrite SegmentsFacts.map_fmap in Hname.
    apply list_elem_of_fmap in Hname as (x & Hx & Hxin).
    rewrite MarkdownQueriesFacts.UnorderedChild_head.
    rewrite MarkdownQueriesFacts.sectionsNamed_childSections.
    destruct (List.filter
                (fun c => String.eqb (MarkdownNode.sectionNameOf c)
                            (sectionName source h))
                (MarkdownQueries.childSections n)) as [|y l] eqn:Hf.
    + assert (Hxf : x ∈ List.filter
                (fun c => String.eqb (MarkdownNode.sectionNameOf c)
                            (sectionName source h))
                (MarkdownQueries.childSections n)).
      { rewrite list_elem_of_In, filter_In, <- list_elem_of_In.
        split; [exact Hxin|]. rewrite Hx. apply String.eqb_refl. }
      rewrite Hf in Hxf. inversion Hxf.
    + exists (MarkdownNode.derive n y). split; [reflexivity|].
      assert (Hy : y ∈ List.filter
                (fun c => String.eqb (MarkdownNode.sectionNameOf c)
                            (sectionName source h))
                (MarkdownQueries.childSections n)).
      { rewrite Hf. apply list_elem_of_here. }
      rewrite list_elem_of_In, filter_In in Hy. destruct Hy as [_ Hy].
      now apply String.eqb_eq in Hy.
Qed.

(** X17. A section holds what follows its heading up to the next heading
    of the same level: for children [pre], a heading of the level, a run
    without such a heading, and a rest that is empty or starts with
    another one, the child list after [compileSection] has the section
    of that heading, and the section holds the run as it is at level 6 or
    more, and below that what [compileSection] at the next level makes of
    the run. *)
Theorem section_holds_run (source : string) (level : Z) (h : heading)
    (pre run rest : list node) :
  Level h = level ->
  run_at level run ->
  leads level rest = false ->
  SectionNode (Some h) (sectionName source h)
    (if level >=? 6 then run else compileSection source (level + 1) run)
  ∈ compileSection source level (pre ++ HeadingNode h :: run ++ rest).
Proof.
  intros Hl Hrun Hrest. apply run_at_opens in Hrun.
  assert (Ho : opens level (HeadingNode h) = Some h).
  { cbn [opens]. now rewrite (proj2 (Z.eqb_eq _ _) Hl). }
  destruct (grouped_upto source level pre NewSection _ h (run ++ rest) Ho)
    as (front & Hfront).
  rewrite (grouped_run source level run _ rest Hrun) in Hfront.
  cbn [fresh Heading Name Children app] in Hfront.
  destruct (grouped_section_first source level
              {| Heading := Some h; Name := sectionName source h;
                 Children := run |} h rest eq_refl Hrest)
    as (tail & Htail).
  rewrite Htail in Hfront. cbn [asNode Heading Name Children] in Hfront.
  rewrite (SegmentsFacts.compileSection_grouped source level
             (pre ++ HeadingNode h :: run ++ rest)), Hfront.
  destruct (level >=? 6).
  - apply elem_of_app. right. apply list_elem_of_further, list_elem_of_here.
  - rewrite map_app. cbn [map recurse].
    apply elem_of_app. right. apply list_elem_of_further, list_elem_of_here.
Qed.

Lemma section_holds_run_witness :
  SectionNode (Some (headingOf 1 [] 1)) "A"
    (compileSection "A" 2 [para "one"])
  ∈ compileSection "A" 1
      ([para "intro"] ++ HeadingNode (headingOf 1 [] 1) :: [para "one"]
       ++ [HeadingNode (headingOf 1 [] 1); para "two"]).
Proof.
  apply (section_holds_run "A" 1 (headingOf 1 [] 1) [para "intro"]
           [para "one"] [HeadingNode (headingOf 1 [] 1); para "two"]).
  - reflexivity.
  - intros h Hh. apply elem_of_cons in Hh as [?|Hh]; [discriminate|].
    inversion Hh.
  - reflexivity.
Defined.

End RunsFacts.
